(** * quick-notes: the note cache and its index

    A shallow embedding of [src/quick_notes/utils.py] (class [Cache]) and the
    properties of the note index stated in the specification.

    Conventions of the embedding.
    - A Python [str] is a [string]: a sequence of code points below 256.
      [isspace] and [lower] are Python's on that range.
    - The content of a note file is the text a text-mode reader delivers
      (decoded, line ends already translated to LF).
    - A [pathlib] path is a [Path.t] record (root and components) as the
      POSIX flavour parses it; two paths are equal when their [str] forms
      are, which is how [pathlib] compares them.
    - The file system is a finite map from the [str] form of a path to the
      content of the regular file stored there; directories, permissions
      and decoding failures are outside the model, so [rename] always
      succeeds and replaces its target as POSIX does.
    - A method that can raise returns a [result] together with the state
      reached when the exception leaves the method. *)

From Stdlib Require Import String Ascii.
From stdpp Require Import gmap strings list fin_maps.

Local Open Scope string_scope.
#[local] Set Warnings "-clear-no-such-hyp,-register-all".

(** ** Python string methods *)

Module Str.

(** [chr(n).isspace()] for [n < 256]. *)
Definition isspace (c : ascii) : bool :=
  let n := nat_of_ascii c in
  (((9 <=? n) && (n <=? 13)) || ((28 <=? n) && (n <=? 32))
   || (n =? 133) || (n =? 160))%nat.

(** [chr(n).lower()] for [n < 256]: the ASCII capitals and the Latin-1
    capitals other than the multiplication sign. *)
Definition lower_char (c : ascii) : ascii :=
  let n := nat_of_ascii c in
  if (((65 <=? n) && (n <=? 90))
      || ((192 <=? n) && (n <=? 222) && negb (n =? 215)))%nat
  then ascii_of_nat (n + 32)%nat else c.

Fixpoint lower (s : string) : string :=
  match s with
  | EmptyString => EmptyString
  | String c s' => String (lower_char c) (lower s')
  end.

Definition is_empty (s : string) : bool :=
  match s with EmptyString => true | String _ _ => false end.

Fixpoint mem (c : ascii) (chars : string) : bool :=
  match chars with
  | EmptyString => false
  | String d chars' => if Ascii.eqb c d then true else mem c chars'
  end.

(** [s.lstrip(chars)]: drops the longest prefix made of characters that
    occur in [chars]. *)
Fixpoint lstrip_chars (chars s : string) : string :=
  match s with
  | EmptyString => EmptyString
  | String c s' => if mem c chars then lstrip_chars chars s' else s
  end.

(** [s.lstrip()] and [s.rstrip()] with no argument drop white space. *)
Fixpoint lstrip (s : string) : string :=
  match s with
  | EmptyString => EmptyString
  | String c s' => if isspace c then lstrip s' else s
  end.

Fixpoint rstrip (s : string) : string :=
  match s with
  | EmptyString => EmptyString
  | String c s' =>
      let r := rstrip s' in
      if isspace c && is_empty r then EmptyString else String c r
  end.

Definition strip (s : string) : string := rstrip (lstrip s).

(** [s.startswith(p)]. *)
Fixpoint startswith (s p : string) {struct p} : bool :=
  match p with
  | EmptyString => true
  | String a p' =>
      match s with
      | EmptyString => false
      | String b s' => Ascii.eqb a b && startswith s' p'
      end
  end.

(** [s[1:]]. *)
Definition tail (s : string) : string :=
  match s with EmptyString => EmptyString | String _ s' => s' end.

(** [s[n:]]. *)
Fixpoint drop (n : nat) (s : string) : string :=
  match n, s with
  | O, _ => s
  | S n', String _ s' => drop n' s'
  | S _, EmptyString => EmptyString
  end.

(** [s.split()] with no argument: the maximal runs of characters that are
    not white space, in order. *)
Fixpoint split (s : string) : list string :=
  match s with
  | EmptyString => []
  | String c s' =>
      if isspace c then split s'
      else match s' with
           | EmptyString => [String c EmptyString]
           | String d _ =>
               if isspace d then String c EmptyString :: split s'
               else match split s' with
                    | t :: ts => String c t :: ts
                    | [] => [String c EmptyString]
                    end
           end
  end.

(** [s.split(sep)] for a one-character separator: never empty. *)
Fixpoint split_on (sep : ascii) (s : string) : list string :=
  match s with
  | EmptyString => [EmptyString]
  | String c s' =>
      if Ascii.eqb c sep then EmptyString :: split_on sep s'
      else match split_on sep s' with
           | t :: ts => String c t :: ts
           | [] => [String c EmptyString]
           end
  end.

(** [sep.join(l)]. *)
Fixpoint join (sep : string) (l : list string) : string :=
  match l with
  | [] => EmptyString
  | [x] => x
  | x :: l' => x ++ sep ++ join sep l'
  end.

Definition LF : ascii := ascii_of_nat 10.

(** A file opened for reading is the text still to be read;
    [readline] returns the next line, its LF included, and the rest. *)
Fixpoint readline (f : string) : string * string :=
  match f with
  | EmptyString => (EmptyString, EmptyString)
  | String c f' =>
      if Ascii.eqb c LF then (String c EmptyString, f')
      else let '(l, rest) := readline f' in (String c l, rest)
  end.

End Str.

(** ** Exceptions and results *)

Inductive exn : Type :=
  | NoteFormatError
  | KeyError
  | FileNotFoundError.

Inductive result (A : Type) : Type :=
  | Ok (a : A)
  | Raise (e : exn).
Arguments Ok {A} a.
Arguments Raise {A} e.

(** ** Parsing a note *)

(** The body of [Cache.extract_note_name] once the file is open: [f] is
    the text of the file. *)
Definition name_of_text (f : string) : result string :=
  let '(l, _) := Str.readline f in
  if negb (Str.startswith (Str.strip l) "##")
  then Raise NoteFormatError
  else Ok (Str.strip (Str.lstrip_chars "##" l)).

(** The body of [Cache.extract_note_tags] once the file is open. *)
Definition tags_of_text (f : string) : result (list string) :=
  let '(l, f) := Str.readline f in
  if negb (Str.startswith (Str.strip l) "##")
  then Raise NoteFormatError
  else
    let '(l, _) := Str.readline f in
    if negb (Str.startswith (Str.strip l) "#")
    then Raise NoteFormatError
    else Ok (map (fun t => Str.strip (Str.tail t)) (Str.split l)).

(** The first and the second line of a text. *)
Definition first_line (f : string) : string :=
  fst (Str.readline f).
Definition second_line (f : string) : string :=
  fst (Str.readline (snd (Str.readline f))).

(** ** [pathlib] paths, POSIX flavour *)

Module Path.

Record t : Type := mk { root : string; parts : list string }.

Fixpoint count_leading (c : ascii) (s : string) : nat :=
  match s with
  | String d s' => if Ascii.eqb c d then S (count_leading c s') else O
  | EmptyString => O
  end.

Definition is_component (x : string) : bool :=
  negb (Str.is_empty x) && negb (String.eqb x ".").

(** [pathlib.Path(s)]: one leading slash or three and more make the root
    [/], exactly two make the root [//]; empty components and [.] are
    dropped. *)
Definition of_string (s : string) : t :=
  let n := count_leading "/" s in
  {| root := match n with
             | O => ""
             | 2%nat => "//"
             | _ => "/"
             end;
     parts := filter (fun x => Is_true (is_component x)) (Str.split_on "/" s) |}.

(** [str(p)]. *)
Definition str (p : t) : string :=
  let s := root p ++ Str.join "/" (parts p) in
  if Str.is_empty s then "." else s.

(** [p / q]: a rooted [q] replaces [p]. *)
Definition div (p q : t) : t :=
  if Str.is_empty (root q)
  then {| root := root p; parts := parts p ++ parts q |}
  else q.

(** [p == q]. *)
Definition eqb (p q : t) : bool := String.eqb (str p) (str q).

End Path.

(** ** The index and the file system *)

Module Entry.
(** A value of [Cache.notes]: the dict with keys ['name'] and ['tags']. *)
Record t : Type := mk { name : string; tags : list string }.
End Entry.

Record Cache : Type := mkCache {
  names : gmap string string;
  tags : gmap string (gset string);
  notes : gmap string Entry.t
}.

(** [Cache.__init__] before the directory scan. *)
Definition empty_cache : Cache :=
  {| names := ∅; tags := ∅; notes := ∅ |}.

Record World : Type := mkWorld {
  cache : Cache;
  fs : gmap string string
}.

(** ** Computations that read and write the world and may raise *)

Definition M (A : Type) : Type := World -> result A * World.

Definition ret {A} (a : A) : M A := fun w => (Ok a, w).
Definition raise {A} (e : exn) : M A := fun w => (Raise e, w).
Definition bind {A B} (m : M A) (k : A -> M B) : M B :=
  fun w => match m w with
           | (Ok a, w') => k a w'
           | (Raise e, w') => (Raise e, w')
           end.
Definition lift {A} (r : result A) : M A := fun w => (r, w).

Notation "x <~ m ;; k" := (bind m (fun x => k))
  (at level 100, m at next level, right associativity).
Notation "m ;;; k" := (bind m (fun _ => k))
  (at level 100, right associativity).

(** [for x in l: body(x)]. *)
Fixpoint for_each {A} (l : list A) (body : A -> M unit) : M unit :=
  match l with
  | [] => ret tt
  | x :: l' => body x ;;; for_each l' body
  end.

Definition get_cache : M Cache := fun w => (Ok (cache w), w).
Definition put_cache (c : Cache) : M unit :=
  fun w => (Ok tt, {| cache := c; fs := fs w |}).

(** [del self.names[k]]. *)
Definition del_names (k : string) : M unit :=
  c <~ get_cache ;;
  match names c !! k with
  | Some _ => put_cache {| names := delete k (names c); tags := tags c;
                           notes := notes c |}
  | None => raise KeyError
  end.

(** [self.names[k] = v]. *)
Definition set_names (k v : string) : M unit :=
  c <~ get_cache ;;
  put_cache {| names := <[k := v]> (names c); tags := tags c;
               notes := notes c |}.

(** [del self.notes[k]]. *)
Definition del_notes (k : string) : M unit :=
  c <~ get_cache ;;
  match notes c !! k with
  | Some _ => put_cache {| names := names c; tags := tags c;
                           notes := delete k (notes c) |}
  | None => raise KeyError
  end.

(** [self.notes[k] = e]. *)
Definition set_notes (k : string) (e : Entry.t) : M unit :=
  c <~ get_cache ;;
  put_cache {| names := names c; tags := tags c;
               notes := <[k := e]> (notes c) |}.

Definition set_tags (t : string) (s : gset string) : M unit :=
  c <~ get_cache ;;
  put_cache {| names := names c; tags := <[t := s]> (tags c);
               notes := notes c |}.

(** [self.tags[t]] on a [defaultdict(set)]: a missing key is first bound
    to a new empty set. *)
Definition tags_getitem (t : string) : M (gset string) :=
  c <~ get_cache ;;
  match tags c !! t with
  | Some s => ret s
  | None => set_tags t ∅ ;;; ret ∅
  end.

(** [self.tags[t].remove(p)]: [set.remove] raises [KeyError] when [p] is
    not a member. *)
Definition tags_remove (t p : string) : M unit :=
  s <~ tags_getitem t ;;
  if decide (p ∈ s) then set_tags t (s ∖ {[p]}) else raise KeyError.

(** [self.tags[t].add(p)]. *)
Definition tags_add (t p : string) : M unit :=
  s <~ tags_getitem t ;;
  set_tags t ({[p]} ∪ s).

(** [note.exists()]. *)
Definition exists_ (note : Path.t) : M bool :=
  fun w => (Ok (bool_decide (is_Some (fs w !! Path.str note))), w).

(** [open(note, 'r')]: the text of the file. *)
Definition open_ (note : Path.t) : M string :=
  fun w => match fs w !! Path.str note with
           | Some f => (Ok f, w)
           | None => (Raise FileNotFoundError, w)
           end.

(** [note.rename(target)]. *)
Definition rename (note target : Path.t) : M unit :=
  fun w => match fs w !! Path.str note with
           | Some f =>
               (Ok tt, {| cache := cache w;
                          fs := <[Path.str target := f]>
                                  (delete (Path.str note) (fs w)) |})
           | None => (Raise FileNotFoundError, w)
           end.

(** [Cache.extract_note_name]. *)
Definition extract_note_name (note : Path.t) : M string :=
  f <~ open_ note ;; lift (name_of_text f).

(** [Cache.extract_note_tags]. *)
Definition extract_note_tags (note : Path.t) : M (list string) :=
  f <~ open_ note ;; lift (tags_of_text f).

(** [Cache.uncache_note]. *)
Definition uncache_note (note : Path.t) : M unit :=
  c <~ get_cache ;;
  match notes c !! Path.str note with
  | None => ret tt
  | Some e =>
      let note_name := Entry.name e in
      let tags := Entry.tags e in
      del_names note_name ;;;
      for_each tags (fun tag => tags_remove tag (Path.str note)) ;;;
      del_notes (Path.str note)
  end.

(** The configuration keys the cache reads. *)
Record Config : Type := mkConfig {
  note_file_ext : string;
  note_location : string
}.

Section WithConfig.

(** [self._config], and [Path.expanduser], which depends on the home
    directories of the machine. *)
Variable _config : Config.
Variable expanduser : Path.t -> Path.t.

(** [Cache.get_note_path_for_note_name]. *)
Definition get_note_path_for_note_name (note_name : string) : Path.t :=
  let note_file_ext := note_file_ext _config in
  let note_location := note_location _config in
  let note_file :=
    Path.of_string
      (Str.join "_" (Str.split (Str.lower note_name)) ++ "." ++ note_file_ext) in
  Path.div (expanduser (Path.of_string note_location)) note_file.

(** [Cache.cache_note]. *)
Definition cache_note (note : Path.t) : M (option Path.t) :=
  ex <~ exists_ note ;;
  if negb ex then
    uncache_note note ;;; ret None
  else
    note_name <~ extract_note_name note ;;
    tags <~ extract_note_tags note ;;
    let new_note := get_note_path_for_note_name note_name in
    (if negb (Path.eqb new_note note)
     then rename note new_note ;;; uncache_note note
     else ret tt) ;;;
    set_names note_name (Path.str new_note) ;;;
    c <~ get_cache ;;
    let prev_tags :=
      match notes c !! Path.str new_note with
      | Some e => Entry.tags e
      | None => []
      end in
    for_each prev_tags (fun prev_tag =>
      if negb (bool_decide (prev_tag ∈ tags))
      then tags_remove prev_tag (Path.str new_note)
      else ret tt) ;;;
    for_each tags (fun tag => tags_add tag (Path.str new_note)) ;;;
    set_notes (Path.str new_note) {| Entry.name := note_name; Entry.tags := tags |} ;;;
    ret (Some new_note).

End WithConfig.

(** ** Auxiliary notions used in the statements *)

Definition nl : string := String Str.LF EmptyString.

Fixpoint all_nonspace (s : string) : bool :=
  match s with
  | EmptyString => true
  | String c s' => negb (Str.isspace c) && all_nonspace s'
  end.

(** A world with an empty index and one file. *)
Definition file_world (p f : string) : World :=
  {| cache := empty_cache; fs := {[ p := f ]} |}.

(** The configuration of the examples: notes with extension [md] kept in
    the current directory, where [expanduser] has nothing to expand. *)
Definition cfg0 : Config := {| note_file_ext := "md"; note_location := "." |}.

(** [tags[t]] holds the path [p]. *)
Definition tagged (c : Cache) (t p : string) : Prop :=
  exists s, tags c !! t = Some s /\ p ∈ s.

(** A computation leaves a component of the world as it found it,
    whether it returns or raises. *)
Definition keeps {A B} (proj : World -> B) (m : M A) : Prop :=
  forall w, proj (snd (m w)) = proj w.

(** A computation maintains a property of the world, whether it returns
    or raises. *)
Definition preserves {A} (I : World -> Prop) (m : M A) : Prop :=
  forall w, I w -> I (snd (m w)).

Definition w_names (w : World) := names (cache w).
Definition w_tags (w : World) := tags (cache w).
Definition w_notes (w : World) := notes (cache w).

(** The world of the shopping-list scenario: an empty index and the note
    written to [tmp.md]. *)
Definition shopping_text : string :=
  "## Shopping List" ++ nl ++ "#errands #home" ++ nl ++ "Buy milk" ++ nl.
Definition shopping_world : World := file_world "tmp.md" shopping_text.

(** A note is well formed when the parser accepts its first two lines. *)
Definition wellformed (f : string) : bool :=
  Str.startswith (Str.strip (first_line f)) "##"
  && Str.startswith (Str.strip (second_line f)) "#".

(** Every value of [names] is the canonical path of its key. *)
Definition names_canonical (cfg : Config) (expanduser : Path.t -> Path.t)
    (m : gmap string string) : Prop :=
  forall N v, m !! N = Some v ->
    v = Path.str (get_note_path_for_note_name cfg expanduser N).

(** The indexes a process can hold: the empty one, and the one left by
    [cache_note] or [uncache_note] called on any path with any content of
    the file system, whether the call returned or raised. *)
Inductive reachable (cfg : Config) (expanduser : Path.t -> Path.t) : Cache -> Prop :=
  | reach_empty : reachable cfg expanduser empty_cache
  | reach_cache_note c files note :
      reachable cfg expanduser c ->
      reachable cfg expanduser
        (cache (snd (cache_note cfg expanduser note {| cache := c; fs := files |})))
  | reach_uncache_note c files note :
      reachable cfg expanduser c ->
      reachable cfg expanduser
        (cache (snd (uncache_note note {| cache := c; fs := files |}))).

(** A note whose tag line repeats a tag, indexed from the empty index: the
    index [notes] keeps the list [a, a], the set [tags[a]] holds the path
    once. *)
Definition dup_text : string := "## N" ++ nl ++ "#a #a" ++ nl.
Definition dup_world : World :=
  snd (cache_note cfg0 id (Path.of_string "n.md") (file_world "n.md" dup_text)).

(** The same index after the file has been deleted, retagged or renamed
    by its first line. *)
Definition dup_deleted : World :=
  {| cache := cache dup_world; fs := ∅ |}.
Definition dup_retagged : World :=
  {| cache := cache dup_world;
     fs := {[ "n.md" := "## N" ++ nl ++ "#b" ++ nl ]} |}.
Definition dup_renamed : World :=
  {| cache := cache dup_world;
     fs := {[ "n.md" := "## Bar Baz" ++ nl ++ "#a #a" ++ nl ]} |}.

(** A note tagged [a] and [b], indexed from the empty index, whose tag
    line then becomes [#b #c]. *)
Definition ab_world : World :=
  snd (cache_note cfg0 id (Path.of_string "n.md")
         (file_world "n.md" ("## N" ++ nl ++ "#a #b" ++ nl))).
Definition ab_retagged : World :=
  {| cache := cache ab_world;
     fs := {[ "n.md" := "## N" ++ nl ++ "#b #c" ++ nl ]} |}.

(** A note indexed as [foo.md] whose first line then names it [Bar Baz]. *)
Definition foo_world : World :=
  snd (cache_note cfg0 id (Path.of_string "foo.md")
         (file_world "foo.md" ("## Foo" ++ nl ++ "#a" ++ nl))).
Definition foo_renamed : World :=
  {| cache := cache foo_world;
     fs := {[ "foo.md" := "## Bar Baz" ++ nl ++ "#a" ++ nl ]} |}.

(** ** The configuration file: [Config.get] *)

(** What [yaml.safe_load] returns. A mapping is kept as the list of its
    entries with a string key (a string never equals a key of another
    type), looked up from the left; [YSeq] stands for a list or a set;
    [YScalar] for a number, a boolean, [None], a date or a byte string. *)
Inductive yaml : Type :=
  | YDict (items : list (string * yaml))
  | YStr (s : string)
  | YSeq (l : list yaml)
  | YScalar.

(** [key in s] for two strings: [key] occurs in [s]. *)
Fixpoint contains (s key : string) : bool :=
  Str.startswith s key
  || match s with
     | EmptyString => false
     | String _ s' => contains s' key
     end.

Fixpoint assoc (key : string) (items : list (string * yaml)) : option yaml :=
  match items with
  | [] => None
  | (k, v) :: items' => if String.eqb key k then Some v else assoc key items'
  end.

Definition is_str (key : string) (v : yaml) : bool :=
  match v with YStr s => String.eqb key s | _ => false end.

(** The outcome of [Config.get]. [ConfigError] is bound nowhere in
    [utils.py], so the [raise ConfigError(...)] of the source stops at the
    evaluation of that name, with a [NameError]. *)
Inductive get_result : Type :=
  | Value (v : yaml)
  | NameError
  | TypeError.

(** The two ends of the [elif]: [default] is [None] when the caller left
    the sentinel [MANDATORY_CONFIG] in place. *)
Definition key_missing (default : option yaml) : get_result :=
  match default with
  | None => NameError
  | Some d => Value d
  end.

(** The loop of [Config.get] over the keys of the path. [key in cfg] is
    membership in a mapping, in a list or a set, and occurrence in a
    string; it raises [TypeError] on a scalar. [cfg[key]] raises
    [TypeError] on a string, a list and a set. *)
Fixpoint get_loop (cfg : yaml) (keys : list string) (default : option yaml)
    : get_result :=
  match keys with
  | [] => Value cfg
  | key :: keys' =>
      match cfg with
      | YDict items =>
          match assoc key items with
          | Some v => get_loop v keys' default
          | None => key_missing default
          end
      | YStr s => if contains s key then TypeError else key_missing default
      | YSeq l => if existsb (is_str key) l then TypeError else key_missing default
      | YScalar => TypeError
      end
  end.

(** [Config.get]. *)
Definition Config_get (cfg : yaml) (path : string) (default : option yaml)
    : get_result :=
  get_loop cfg (Str.split_on "." path) default.

(** [cfg[k1][k2]...] through mappings only. *)
Fixpoint descend (cfg : yaml) (keys : list string) : option yaml :=
  match keys with
  | [] => Some cfg
  | key :: keys' =>
      match cfg with
      | YDict items =>
          match assoc key items with
          | Some v => descend v keys'
          | None => None
          end
      | _ => None
      end
  end.

(** No dot in a key. *)
Definition dotless (key : string) : Prop :=
  Str.split_on "." key = [key].

(** ** The process: the world, the console and the log *)

Inductive cli_exn : Type :=
  | Exn (e : exn)
  | IndexError.

Inductive outcome (A : Type) : Type :=
  | Done (a : A)
  | Failed (e : cli_exn).
Arguments Done {A} a.
Arguments Failed {A} e.

(** [stdout] holds the lines written by [print], [logged] the messages
    handed to [_logger.error], both in the order of writing. *)
Record Proc : Type := mkProc {
  world : World;
  stdout : list string;
  logged : list string
}.

Definition P (A : Type) : Type := Proc -> outcome A * Proc.

Definition retP {A} (a : A) : P A := fun s => (Done a, s).
Definition raiseP {A} (e : cli_exn) : P A := fun s => (Failed e, s).
Definition bindP {A B} (m : P A) (k : A -> P B) : P B :=
  fun s => match m s with
           | (Done a, s') => k a s'
           | (Failed e, s') => (Failed e, s')
           end.

(** A computation on the world, run inside the process. *)
Definition run {A} (m : M A) : P A :=
  fun s => match m (world s) with
           | (Ok a, w) =>
               (Done a, {| world := w; stdout := stdout s; logged := logged s |})
           | (Raise e, w) =>
               (Failed (Exn e),
                {| world := w; stdout := stdout s; logged := logged s |})
           end.

(** [print(line)]. *)
Definition print (line : string) : P unit :=
  fun s => (Done tt, {| world := world s; stdout := stdout s ++ [line];
                        logged := logged s |}).

(** [_logger.error(line)]. *)
Definition logger_error (line : string) : P unit :=
  fun s => (Done tt, {| world := world s; stdout := stdout s;
                        logged := logged s ++ [line] |}).

Notation "'let*' x ':=' m 'in' k" := (bindP m (fun x => k))
  (at level 10, x name, m at level 100, k at level 200).
Notation "m '>>' k" := (bindP m (fun _ => k))
  (at level 90, right associativity).

(** [str(e)] for the [NoteFormatError] that the text [f] makes the parser
    raise: the message of the first line when that one is refused, the
    message of the second line otherwise. *)
Definition format_error_text (f : string) : string :=
  if negb (Str.startswith (Str.strip (first_line f)) "##")
  then "first line does not start with '##'"
  else "second line does not start with '#', should be tags. e.g. '#python #101'".

Section Process.

Variable _config : Config.
Variable expanduser : Path.t -> Path.t.

(** The body of the loop of [Cache._cache_notes]: [cache_note] inside
    [try], the [NoteFormatError] caught and logged with the path and the
    message of the exception (the file is there when the parser has
    raised). *)
Definition try_cache_note (note : Path.t) : P unit :=
  fun s =>
    match cache_note _config expanduser note (world s) with
    | (Ok _, w) =>
        (Done tt, {| world := w; stdout := stdout s; logged := logged s |})
    | (Raise NoteFormatError, w) =>
        logger_error
          ("Failed to load " ++ Path.str note ++ ": "
           ++ match fs w !! Path.str note with
              | Some f => format_error_text f
              | None => ""
              end)
          {| world := w; stdout := stdout s; logged := logged s |}
    | (Raise e, w) =>
        (Failed (Exn e),
         {| world := w; stdout := stdout s; logged := logged s |})
    end.

(** [Cache._cache_notes]: [globbed] is what
    [self._note_path.glob(f"*.{self._ext}")] yields, in that order. *)
Fixpoint _cache_notes (globbed : list Path.t) : P unit :=
  match globbed with
  | [] => retP tt
  | note :: rest => try_cache_note note >> _cache_notes rest
  end.

(** [note.name]: the last component, empty when there is none. *)
Definition Path_name (p : Path.t) : string :=
  List.last (Path.parts p) "".

(** [operation.split()[-1]]. *)
Definition last_token (operation : string) : P string :=
  match Str.split operation with
  | [] => raiseP IndexError
  | t :: ts => retP (List.last ts t)
  end.

(** [deleted_dir.mkdir()] when [deleted_dir] does not exist: directories
    are not part of the file system of the model, and the step leaves the
    regular files as they are. *)
Definition ensure_dir (dir : Path.t) : P unit := retP tt.

(** [delete_note] of [cli.py]. *)
Definition delete_note (operation : string) : P unit :=
  let* tok := last_token operation in
  let note := Path.of_string tok in
  let deleted_dir :=
    Path.div (expanduser (Path.of_string (note_location _config)))
             (Path.of_string "deleted") in
  let deleted_note := Path.div deleted_dir (Path.of_string (Path_name note)) in
  ensure_dir deleted_dir >>
  run (rename note deleted_note) >>
  run (cache_note _config expanduser note) >>
  print ("Marked " ++ Path.str note ++ " deleted").

(** [restore_note] of [cli.py]. *)
Definition restore_note (operation : string) : P unit :=
  let* tok := last_token operation in
  let deleted_note := Path.of_string tok in
  let restored_note :=
    Path.div (expanduser (Path.of_string (note_location _config)))
             (Path.of_string (Path_name deleted_note)) in
  run (rename deleted_note restored_note) >>
  run (cache_note _config expanduser restored_note) >>
  print ("Restored " ++ Path.str restored_note).

End Process.

(** The entry [cache_note] stores for a note with the text [f], when the
    parser accepts it. *)
Definition entry_of_text (f : string) : option Entry.t :=
  match name_of_text f, tags_of_text f with
  | Ok N, Ok T => Some {| Entry.name := N; Entry.tags := T |}
  | _, _ => None
  end.

(** A directory with a well-formed note and a malformed one. *)
Definition two_notes : Proc :=
  {| world := {| cache := empty_cache;
                 fs := {[ "a.md" := "## A" ++ nl ++ "#x" ++ nl;
                          "b.md" := "no marker here" ++ nl ]} |};
     stdout := []; logged := [] |}.

(** Every key of [notes] is the canonical path of the name in its
    entry. *)
Definition notes_canonical (cfg : Config) (expanduser : Path.t -> Path.t)
    (m : gmap string Entry.t) : Prop :=
  forall p e, m !! p = Some e ->
    p = Path.str (get_note_path_for_note_name cfg expanduser (Entry.name e)).

(** The two paths [delete_note] and [restore_note] compute: where a note
    goes when it is deleted, and where a deleted note comes back. *)
Definition deleted_path (cfg : Config) (expanduser : Path.t -> Path.t)
    (note : Path.t) : Path.t :=
  Path.div
    (Path.div (expanduser (Path.of_string (note_location cfg)))
              (Path.of_string "deleted"))
    (Path.of_string (Path_name note)).

Definition restored_path (cfg : Config) (expanduser : Path.t -> Path.t)
    (deleted_note : Path.t) : Path.t :=
  Path.div (expanduser (Path.of_string (note_location cfg)))
           (Path.of_string (Path_name deleted_note)).

(** The process that holds the index of [ab_world], with nothing written
    yet. *)
Definition ab_proc : Proc :=
  {| world := ab_world; stdout := []; logged := [] |}.

(** * Properties *)

(** ** Facts about the string methods *)

Lemma startswith_cons_inv p c q d :
  Str.startswith (String d q) (String c p) = true ->
  c = d /\ Str.startswith q p = true.
Proof.
  simpl. intros [H1 H2]%andb_true_iff. now apply Ascii.eqb_eq in H1.
Qed.

Lemma rstrip_nonspace_head c s :
  Str.isspace c = false -> Str.rstrip (String c s) = String c (Str.rstrip s).
Proof. intros H. simpl. now rewrite H. Qed.

Lemma lstrip_nonspace_head c s :
  Str.isspace c = false -> Str.lstrip (String c s) = String c s.
Proof. intros H. simpl. now rewrite H. Qed.

Lemma strip_nonspace_head c s :
  Str.isspace c = false -> Str.strip (String c s) = String c (Str.rstrip s).
Proof.
  intros H. unfold Str.strip.
  now rewrite lstrip_nonspace_head, rstrip_nonspace_head.
Qed.

(** A line that begins with the name marker still does once stripped. *)
Lemma startswith_strip_name_marker l :
  Str.startswith l "##" = true -> Str.startswith (Str.strip l) "##" = true.
Proof.
  destruct l as [|a [|b r]]; try discriminate.
  - simpl. now rewrite andb_false_r.
  - intros H. apply startswith_cons_inv in H as [<- H].
    apply startswith_cons_inv in H as [<- _].
    rewrite strip_nonspace_head by reflexivity.
    rewrite rstrip_nonspace_head by reflexivity. reflexivity.
Qed.

(** [lstrip('##')] takes off exactly the marker when no third [#] follows. *)
Lemma lstrip_chars_name_marker l :
  Str.startswith l "##" = true ->
  Str.startswith (Str.drop 2 l) "#" = false ->
  Str.lstrip_chars "##" l = Str.drop 2 l.
Proof.
  destruct l as [|a [|b r]]; try discriminate.
  - simpl. now rewrite andb_false_r.
  - intros H. apply startswith_cons_inv in H as [<- H].
    apply startswith_cons_inv in H as [<- _]. simpl Str.drop.
    intros Hr. change (Str.lstrip_chars "##" r = r).
    destruct r as [|c r]; [reflexivity|].
    change (Ascii.eqb "#" c && true = false) in Hr.
    rewrite andb_true_r in Hr.
    change (Str.lstrip_chars "##" (String c r))
      with (if (if Ascii.eqb c "#" then true
                else if Ascii.eqb c "#" then true else false)
            then Str.lstrip_chars "##" r else String c r).
    rewrite Ascii.eqb_sym, Hr. reflexivity.
Qed.

Lemma rstrip_all_nonspace s : all_nonspace s = true -> Str.rstrip s = s.
Proof.
  induction s as [|c s IH]; [reflexivity|]. simpl.
  intros [Hc Hs]%andb_true_iff. apply negb_true_iff in Hc.
  rewrite Hc, IH by assumption. reflexivity.
Qed.

Lemma strip_all_nonspace s : all_nonspace s = true -> Str.strip s = s.
Proof.
  intros H. unfold Str.strip.
  assert (Str.lstrip s = s) as ->.
  { destruct s as [|c s]; [reflexivity|]. simpl in *.
    apply andb_true_iff in H as [Hc _]. apply negb_true_iff in Hc.
    now rewrite Hc. }
  now apply rstrip_all_nonspace.
Qed.

Lemma tail_all_nonspace s : all_nonspace s = true -> all_nonspace (Str.tail s) = true.
Proof.
  destruct s; [reflexivity|]. simpl. now intros [_ H]%andb_true_iff.
Qed.

(** The tokens of [split] hold no white space. *)
Lemma split_all_nonspace s :
  Forall (fun t => all_nonspace t = true) (Str.split s).
Proof.
  induction s as [|c s IH]; [constructor|].
  simpl. destruct (Str.isspace c) eqn:Hc; [assumption|].
  destruct s as [|d s'].
  - constructor; [|constructor]. simpl. now rewrite Hc.
  - destruct (Str.isspace d) eqn:Hd.
    + constructor; [|assumption]. simpl. now rewrite Hc.
    + destruct (Str.split (String d s')) as [|t ts].
      * constructor; [|constructor]. simpl. now rewrite Hc.
      * inversion IH; subst. constructor; [|assumption].
        simpl. rewrite Hc. assumption.
Qed.

(** On the tokens of a line the [strip] of the source changes nothing. *)
Lemma map_strip_tail_split l :
  map (fun t => Str.strip (Str.tail t)) (Str.split l) = map Str.tail (Str.split l).
Proof.
  pose proof (split_all_nonspace l) as H.
  induction H as [|t ts Ht _ IH]; [reflexivity|].
  simpl. rewrite IH, strip_all_nonspace; [reflexivity|].
  now apply tail_all_nonspace.
Qed.

(** ** The parser *)

Lemma name_of_text_raise f :
  name_of_text f = Raise NoteFormatError <->
  Str.startswith (Str.strip (first_line f)) "##" = false.
Proof.
  unfold name_of_text, first_line.
  destruct (Str.readline f) as [l rest]. cbn [fst].
  destruct (Str.startswith (Str.strip l) "##"); cbn [negb];
    split; intros H; try reflexivity; discriminate H.
Qed.

Lemma name_of_text_ok f :
  Str.startswith (Str.strip (first_line f)) "##" = true ->
  name_of_text f = Ok (Str.strip (Str.lstrip_chars "##" (first_line f))).
Proof.
  unfold name_of_text, first_line.
  destruct (Str.readline f) as [l rest]. cbn [fst]. now intros ->.
Qed.

Lemma name_of_text_exn f e : name_of_text f = Raise e -> e = NoteFormatError.
Proof.
  unfold name_of_text. destruct (Str.readline f) as [l rest].
  destruct (negb _); congruence.
Qed.

Lemma tags_of_text_exn f e : tags_of_text f = Raise e -> e = NoteFormatError.
Proof.
  unfold tags_of_text. destruct (Str.readline f) as [l rest].
  destruct (negb _); [congruence|].
  destruct (Str.readline rest) as [l2 rest2].
  destruct (negb _); congruence.
Qed.

Lemma tags_of_text_raise f :
  Str.startswith (Str.strip (first_line f)) "##" = true ->
  tags_of_text f = Raise NoteFormatError <->
  Str.startswith (Str.strip (second_line f)) "#" = false.
Proof.
  unfold tags_of_text, first_line, second_line.
  destruct (Str.readline f) as [l rest]. cbn [fst snd]. intros ->.
  cbn [negb]. destruct (Str.readline rest) as [l2 rest2]. cbn [fst].
  destruct (Str.startswith (Str.strip l2) "#"); cbn [negb];
    split; intros H; try reflexivity; discriminate H.
Qed.

Lemma tags_of_text_ok f :
  Str.startswith (Str.strip (first_line f)) "##" = true ->
  Str.startswith (Str.strip (second_line f)) "#" = true ->
  tags_of_text f = Ok (map Str.tail (Str.split (second_line f))).
Proof.
  unfold tags_of_text, first_line, second_line.
  destruct (Str.readline f) as [l rest]. cbn [fst snd]. intros ->.
  cbn [negb]. destruct (Str.readline rest) as [l2 rest2]. cbn [fst].
  intros ->. cbn [negb]. now rewrite map_strip_tail_split.
Qed.

(** Reading a note that is there. *)
Lemma extract_note_name_run note w f :
  fs w !! Path.str note = Some f ->
  extract_note_name note w = (name_of_text f, w).
Proof.
  intros H. unfold extract_note_name, bind, open_, lift. now rewrite H.
Qed.

Lemma extract_note_tags_run note w f :
  fs w !! Path.str note = Some f ->
  extract_note_tags note w = (tags_of_text f, w).
Proof.
  intros H. unfold extract_note_tags, bind, open_, lift. now rewrite H.
Qed.

(** ** Name extraction *)

(** C3, the claim as stated fails: the first line of this note does not
    begin with the marker [##] (a blank comes first), and yet name
    extraction raises nothing. *)
Lemma extract_note_name_accepts_indented_marker :
  Str.startswith (first_line (" ## x" ++ nl)) "##" = false /\
  extract_note_name (Path.of_string "n.md") (file_world "n.md" (" ## x" ++ nl))
  = (Ok "## x", file_world "n.md" (" ## x" ++ nl)).
Proof. split; vm_compute; reflexivity. Qed.

(** C3, amended: name extraction raises [NoteFormatError] exactly when
    the first line, with surrounding white space stripped, does not begin
    with [##], and returns a name otherwise; when the first line itself
    begins with [##] and no third [#] follows, the name is the rest of
    the line after the two marker characters, stripped of surrounding
    white space. *)
Theorem extract_note_name_spec note w f :
  fs w !! Path.str note = Some f ->
  (extract_note_name note w = (Raise NoteFormatError, w) <->
   Str.startswith (Str.strip (first_line f)) "##" = false)
  /\ (Str.startswith (Str.strip (first_line f)) "##" = true ->
      exists n, extract_note_name note w = (Ok n, w))
  /\ (Str.startswith (first_line f) "##" = true ->
      Str.startswith (Str.drop 2 (first_line f)) "#" = false ->
      extract_note_name note w = (Ok (Str.strip (Str.drop 2 (first_line f))), w)).
Proof.
  intros Hf. rewrite (extract_note_name_run _ _ _ Hf). repeat split.
  - intros [= H]. now apply name_of_text_raise.
  - intros H. f_equal. now apply name_of_text_raise.
  - intros H. eexists. f_equal. now apply name_of_text_ok.
  - intros H1 H2. f_equal.
    rewrite name_of_text_ok by now apply startswith_strip_name_marker.
    now rewrite lstrip_chars_name_marker.
Qed.

Lemma extract_note_name_spec_witness :
  extract_note_name (Path.of_string "tmp.md")
    (file_world "tmp.md" ("## Shopping List" ++ nl ++ "#errands #home" ++ nl))
  = (Ok "Shopping List",
     file_world "tmp.md" ("## Shopping List" ++ nl ++ "#errands #home" ++ nl)).
Proof.
  refine (proj2 (proj2 (extract_note_name_spec (Path.of_string "tmp.md")
            (file_world "tmp.md" ("## Shopping List" ++ nl ++ "#errands #home" ++ nl))
            ("## Shopping List" ++ nl ++ "#errands #home" ++ nl) _)) _ _);
    vm_compute; reflexivity.
Defined.

(** ** Tag extraction *)

(** C4, the claim as stated fails: the first line of this note is well
    formed, its second line does not begin with the marker [#] (a blank
    comes first), and yet tag extraction raises nothing. *)
Lemma extract_note_tags_accepts_indented_marker :
  Str.startswith (first_line ("## n" ++ nl ++ " #a b" ++ nl)) "##" = true /\
  Str.startswith (second_line ("## n" ++ nl ++ " #a b" ++ nl)) "#" = false /\
  extract_note_tags (Path.of_string "n.md")
    (file_world "n.md" ("## n" ++ nl ++ " #a b" ++ nl))
  = (Ok ["a"; ""], file_world "n.md" ("## n" ++ nl ++ " #a b" ++ nl)).
Proof. repeat split; vm_compute; reflexivity. Qed.

(** C4, amended: for a note whose first line is accepted, tag extraction
    raises [NoteFormatError] exactly when the second line, with
    surrounding white space stripped, does not begin with [#]; otherwise
    it returns one tag for each white-space separated token of the second
    line, in order and with repetitions kept, and the tag of a token that
    begins with [#] is that token without the marker. *)
Theorem extract_note_tags_spec note w f :
  fs w !! Path.str note = Some f ->
  Str.startswith (Str.strip (first_line f)) "##" = true ->
  (extract_note_tags note w = (Raise NoteFormatError, w) <->
   Str.startswith (Str.strip (second_line f)) "#" = false)
  /\ (Str.startswith (Str.strip (second_line f)) "#" = true ->
      exists tags,
        extract_note_tags note w = (Ok tags, w) /\
        Forall2 (fun tok tag => Str.startswith tok "#" = true -> tag = Str.tail tok)
          (Str.split (second_line f)) tags).
Proof.
  intros Hf H1. rewrite (extract_note_tags_run _ _ _ Hf). repeat split.
  - intros [= H]. now apply tags_of_text_raise.
  - intros H. f_equal. now apply tags_of_text_raise.
  - intros H. eexists. split; [f_equal; now apply tags_of_text_ok|].
    induction (Str.split (second_line f)); constructor; auto.
Qed.

Lemma extract_note_tags_spec_witness :
  exists tags,
    extract_note_tags (Path.of_string "n.md")
      (file_world "n.md" ("## n" ++ nl ++ "#a #b #a ##c" ++ nl))
    = (Ok tags, file_world "n.md" ("## n" ++ nl ++ "#a #b #a ##c" ++ nl)) /\
    Forall2 (fun tok tag => Str.startswith tok "#" = true -> tag = Str.tail tok)
      ["#a"; "#b"; "#a"; "##c"] tags.
Proof.
  refine (proj2 (extract_note_tags_spec (Path.of_string "n.md")
            (file_world "n.md" ("## n" ++ nl ++ "#a #b #a ##c" ++ nl))
            ("## n" ++ nl ++ "#a #b #a ##c" ++ nl) _ _) _);
    vm_compute; reflexivity.
Defined.

(** The repetition is kept: the note above has the tags [a], [b], [a]
    and [#c]. *)
Example extract_note_tags_keeps_repetitions :
  extract_note_tags (Path.of_string "n.md")
    (file_world "n.md" ("## n" ++ nl ++ "#a #b #a ##c" ++ nl))
  = (Ok ["a"; "b"; "a"; "#c"],
     file_world "n.md" ("## n" ++ nl ++ "#a #b #a ##c" ++ nl)).
Proof. vm_compute; reflexivity. Qed.

(** ** Running computations *)

Lemma bind_run {A B} (m : M A) (k : A -> M B) w a w1 :
  m w = (Ok a, w1) -> bind m k w = k a w1.
Proof. intros H. unfold bind. now rewrite H. Qed.

Lemma bind_raise {A B} (m : M A) (k : A -> M B) w e w1 :
  m w = (Raise e, w1) -> bind m k w = (Raise e, w1).
Proof. intros H. unfold bind. now rewrite H. Qed.

Lemma bind_ok_inv {A B} (m : M A) (k : A -> M B) w b w' :
  bind m k w = (Ok b, w') ->
  exists a w1, m w = (Ok a, w1) /\ k a w1 = (Ok b, w').
Proof.
  unfold bind. destruct (m w) as [[a|e] w1]; [eauto | discriminate].
Qed.

Lemma world_eta w : {| cache := cache w; fs := fs w |} = w.
Proof. now destruct w. Qed.

Lemma cache_eta c : {| names := names c; tags := tags c; notes := notes c |} = c.
Proof. now destruct c. Qed.

Lemma keeps_ret {A B} (proj : World -> B) (a : A) : keeps proj (ret a).
Proof. now intros w. Qed.

Lemma keeps_raise {A B} (proj : World -> B) e : keeps proj (@raise A e).
Proof. now intros w. Qed.

Lemma keeps_lift {A B} (proj : World -> B) (r : result A) : keeps proj (lift r).
Proof. now intros w. Qed.

Lemma keeps_bind {A B C} (proj : World -> C) (m : M A) (k : A -> M B) :
  keeps proj m -> (forall a, keeps proj (k a)) -> keeps proj (bind m k).
Proof.
  intros Hm Hk w. unfold bind. specialize (Hm w).
  destruct (m w) as [[a|e] w1]; simpl in *; [|assumption].
  now rewrite Hk.
Qed.

Lemma keeps_for_each {A C} (proj : World -> C) (l : list A) body :
  (forall x, keeps proj (body x)) -> keeps proj (for_each l body).
Proof.
  intros H. induction l as [|x l IH]; simpl.
  - apply keeps_ret.
  - apply keeps_bind; auto.
Qed.

Lemma keeps_ok {A B} (proj : World -> B) (m : M A) w r w' :
  keeps proj m -> m w = (r, w') -> proj w' = proj w.
Proof. intros H E. specialize (H w). now rewrite E in H. Qed.

Lemma keeps_preserves {A B} (proj : World -> B) (P : B -> Prop) (m : M A) :
  keeps proj m -> preserves (fun w => P (proj w)) m.
Proof. intros H w Hw. now rewrite H. Qed.

Lemma preserves_ret {A} I (a : A) : preserves I (ret a).
Proof. now intros w. Qed.

Lemma preserves_bind {A B} I (m : M A) (k : A -> M B) :
  preserves I m -> (forall a, preserves I (k a)) -> preserves I (bind m k).
Proof.
  intros Hm Hk w Hw. unfold bind. specialize (Hm w Hw).
  destruct (m w) as [[a|e] w1]; simpl in *; [|assumption].
  now apply Hk.
Qed.

Lemma preserves_for_each {A} I (l : list A) body :
  (forall x, preserves I (body x)) -> preserves I (for_each l body).
Proof.
  intros H. induction l as [|x l IH]; simpl.
  - apply preserves_ret.
  - apply preserves_bind; auto.
Qed.

Lemma preserves_ok {A} I (m : M A) w r w' :
  preserves I m -> I w -> m w = (r, w') -> I w'.
Proof. intros H Hw E. specialize (H w Hw). now rewrite E in H. Qed.

(** ** What each primitive leaves alone *)

Ltac prim :=
  unfold keeps, preserves, del_names, set_names, del_notes, set_notes,
    tags_remove, tags_add, tags_getitem, set_tags, exists_, open_, rename,
    get_cache, put_cache, bind, ret, raise, lift,
    w_names, w_tags, w_notes;
  intros; simpl; try done;
  repeat (case_match; simpl in *; simplify_eq; try done).

Lemma keeps_get_cache {B} (proj : World -> B) : keeps proj get_cache.
Proof. prim. Qed.

Lemma del_names_keeps_tags k : keeps w_tags (del_names k).
Proof. prim. Qed.
Lemma del_names_keeps_notes k : keeps w_notes (del_names k).
Proof. prim. Qed.
Lemma del_names_keeps_fs k : keeps fs (del_names k).
Proof. prim. Qed.

Lemma set_names_keeps_tags k v : keeps w_tags (set_names k v).
Proof. prim. Qed.
Lemma set_names_keeps_notes k v : keeps w_notes (set_names k v).
Proof. prim. Qed.
Lemma set_names_keeps_fs k v : keeps fs (set_names k v).
Proof. prim. Qed.

Lemma del_notes_keeps_names k : keeps w_names (del_notes k).
Proof. prim. Qed.
Lemma del_notes_keeps_tags k : keeps w_tags (del_notes k).
Proof. prim. Qed.
Lemma del_notes_keeps_fs k : keeps fs (del_notes k).
Proof. prim. Qed.

Lemma set_notes_keeps_names k e : keeps w_names (set_notes k e).
Proof. prim. Qed.
Lemma set_notes_keeps_tags k e : keeps w_tags (set_notes k e).
Proof. prim. Qed.
Lemma set_notes_keeps_fs k e : keeps fs (set_notes k e).
Proof. prim. Qed.

Lemma tags_remove_keeps_names t p : keeps w_names (tags_remove t p).
Proof. prim. Qed.
Lemma tags_remove_keeps_notes t p : keeps w_notes (tags_remove t p).
Proof. prim. Qed.
Lemma tags_remove_keeps_fs t p : keeps fs (tags_remove t p).
Proof. prim. Qed.

Lemma tags_add_keeps_names t p : keeps w_names (tags_add t p).
Proof. prim. Qed.
Lemma tags_add_keeps_notes t p : keeps w_notes (tags_add t p).
Proof. prim. Qed.
Lemma tags_add_keeps_fs t p : keeps fs (tags_add t p).
Proof. prim. Qed.

Lemma rename_keeps_cache note target : keeps cache (rename note target).
Proof. prim. Qed.

Lemma exists_keeps {B} (proj : World -> B) note : keeps proj (exists_ note).
Proof. prim. Qed.

Lemma extract_note_name_keeps {B} (proj : World -> B) note :
  keeps proj (extract_note_name note).
Proof. unfold extract_note_name. prim. Qed.

Lemma extract_note_tags_keeps {B} (proj : World -> B) note :
  keeps proj (extract_note_tags note).
Proof. unfold extract_note_tags. prim. Qed.

Create HintDb keeps.

#[local] Hint Resolve keeps_ret keeps_raise keeps_lift keeps_get_cache
  del_names_keeps_tags del_names_keeps_notes del_names_keeps_fs
  set_names_keeps_tags set_names_keeps_notes set_names_keeps_fs
  del_notes_keeps_names del_notes_keeps_tags del_notes_keeps_fs
  set_notes_keeps_names set_notes_keeps_tags set_notes_keeps_fs
  tags_remove_keeps_names tags_remove_keeps_notes tags_remove_keeps_fs
  tags_add_keeps_names tags_add_keeps_notes tags_add_keeps_fs
  exists_keeps extract_note_name_keeps extract_note_tags_keeps : keeps.

(** Splits a composed computation into its steps. *)
Ltac keeps_steps :=
  repeat first
    [ solve [eauto with keeps]
    | apply keeps_bind; [|intros]
    | apply keeps_for_each; intros
    | match goal with |- keeps _ (match ?x with _ => _ end) => destruct x end
    | match goal with |- keeps _ (if ?x then _ else _) => destruct x end ].

Lemma uncache_note_keeps_fs note : keeps fs (uncache_note note).
Proof. unfold uncache_note. keeps_steps. Qed.

(** ** Malformed notes *)

Lemma exists_run_true note w f :
  fs w !! Path.str note = Some f -> exists_ note w = (Ok true, w).
Proof. intros H. unfold exists_. rewrite H. reflexivity. Qed.

Lemma exists_run_false note w :
  fs w !! Path.str note = None -> exists_ note w = (Ok false, w).
Proof. intros H. unfold exists_. rewrite H. reflexivity. Qed.

Lemma wellformed_parse f :
  wellformed f = true ->
  exists N T, name_of_text f = Ok N /\ tags_of_text f = Ok T.
Proof.
  unfold wellformed. intros [H1 H2]%andb_true_iff.
  eexists _, _. split; [now apply name_of_text_ok | now apply tags_of_text_ok].
Qed.

Lemma malformed_parse f :
  wellformed f = false ->
  name_of_text f = Raise NoteFormatError \/
  (exists N, name_of_text f = Ok N) /\ tags_of_text f = Raise NoteFormatError.
Proof.
  unfold wellformed. intros H.
  destruct (Str.startswith (Str.strip (first_line f)) "##") eqn:H1.
  - right. split; [eexists; now apply name_of_text_ok|].
    now apply tags_of_text_raise.
  - left. now apply name_of_text_raise.
Qed.

(** C5: when the file is there and its content is malformed, [cache_note]
    raises [NoteFormatError] and leaves the index and the file system
    exactly as they were. *)
Theorem cache_note_format_error cfg expanduser note w f :
  fs w !! Path.str note = Some f ->
  wellformed f = false ->
  cache_note cfg expanduser note w = (Raise NoteFormatError, w).
Proof.
  intros Hf Hbad. unfold cache_note.
  rewrite (bind_run _ _ _ _ _ (exists_run_true _ _ _ Hf)). cbn [negb].
  destruct (malformed_parse f Hbad) as [Hn | [[N Hn] Ht]].
  - apply bind_raise. rewrite (extract_note_name_run _ _ _ Hf). now rewrite Hn.
  - erewrite bind_run
      by (rewrite (extract_note_name_run _ _ _ Hf); now rewrite Hn).
    apply bind_raise. rewrite (extract_note_tags_run _ _ _ Hf). now rewrite Ht.
Qed.

Lemma cache_note_format_error_witness :
  cache_note cfg0 id (Path.of_string "tmp.md")
    (file_world "tmp.md" ("no marker here" ++ nl))
  = (Raise NoteFormatError, file_world "tmp.md" ("no marker here" ++ nl))
  /\ cache (file_world "tmp.md" ("no marker here" ++ nl)) = empty_cache.
Proof.
  split; [|reflexivity].
  apply (cache_note_format_error cfg0 id (Path.of_string "tmp.md")
           (file_world "tmp.md" ("no marker here" ++ nl))
           ("no marker here" ++ nl));
    vm_compute; reflexivity.
Defined.

(** ** The steps of [cache_note] *)

Lemma set_names_run k v w :
  set_names k v w
  = (Ok tt, {| cache := {| names := <[k := v]> (names (cache w));
                           tags := tags (cache w);
                           notes := notes (cache w) |};
               fs := fs w |}).
Proof. reflexivity. Qed.

Lemma set_notes_run k e w :
  set_notes k e w
  = (Ok tt, {| cache := {| names := names (cache w);
                           tags := tags (cache w);
                           notes := <[k := e]> (notes (cache w)) |};
               fs := fs w |}).
Proof. reflexivity. Qed.

Lemma tags_add_ok t p w :
  exists w', tags_add t p w = (Ok tt, w') /\ tagged (cache w') t p.
Proof.
  unfold tags_add, tags_getitem, set_tags, bind, get_cache, put_cache, ret.
  simpl. destruct (tags (cache w) !! t) as [s|]; simpl;
    (eexists; split; [reflexivity|]); unfold tagged; simpl;
    eexists; (split; [apply lookup_insert_eq | set_solver]).
Qed.

Lemma tags_add_preserves_tagged t p t0 p0 :
  preserves (fun w => tagged (cache w) t0 p0) (tags_add t p).
Proof.
  intros w (s0 & Hs0 & Hp0).
  unfold tags_add, tags_getitem, set_tags, bind, get_cache, put_cache, ret,
    tagged.
  simpl. destruct (tags (cache w) !! t) as [s|] eqn:Ht; simpl.
  - destruct (decide (t = t0)) as [->|Hne].
    + simplify_eq. eexists. split; [apply lookup_insert_eq | set_solver].
    + exists s0. split; [|done]. now rewrite lookup_insert_ne.
  - destruct (decide (t = t0)) as [->|Hne]; [congruence|].
    exists s0. split; [|done]. now rewrite !lookup_insert_ne.
Qed.

Lemma for_each_tags_add T p w :
  exists w', for_each T (fun t => tags_add t p) w = (Ok tt, w') /\
             forall t, t ∈ T -> tagged (cache w') t p.
Proof.
  revert w. induction T as [|t0 T IH]; intros w; simpl.
  - exists w. split; [reflexivity|]. intros t Ht. inversion Ht.
  - destruct (tags_add_ok t0 p w) as (w1 & E1 & H1).
    destruct (IH w1) as (w2 & E2 & H2).
    exists w2. split; [now rewrite (bind_run _ _ _ _ _ E1)|].
    intros t [->|Ht]%elem_of_cons; [|auto].
    refine (preserves_ok (fun w => tagged (cache w) t0 p) _ _ _ _ _ H1 E2).
    apply preserves_for_each. intros x. apply tags_add_preserves_tagged.
Qed.

Lemma path_eqb_eq p q : Path.eqb p q = true -> Path.str p = Path.str q.
Proof. unfold Path.eqb. apply String.eqb_eq. Qed.

Lemma path_eqb_refl p : Path.eqb p p = true.
Proof. unfold Path.eqb. apply String.eqb_refl. Qed.

Lemma path_eqb_neq p q : Path.eqb p q = false -> Path.str p <> Path.str q.
Proof. unfold Path.eqb. apply String.eqb_neq. Qed.

(** ** Removing paths from tag sets *)

Lemma tagged_insert names0 (m : gmap string (gset string)) notes0 t s t0 p0 :
  tagged {| names := names0; tags := <[t := s]> m; notes := notes0 |} t0 p0 <->
  (t = t0 /\ p0 ∈ s) \/
  (t <> t0 /\ tagged {| names := names0; tags := m; notes := notes0 |} t0 p0).
Proof.
  unfold tagged. simpl. destruct (decide (t = t0)) as [->|Hne].
  - rewrite lookup_insert_eq. split.
    + intros (s' & [= <-] & H). now left.
    + intros [[_ H]|[H _]]; [eauto | done].
  - rewrite lookup_insert_ne by done. split.
    + intros H. now right.
    + intros [[H _]|[_ H]]; done.
Qed.

Lemma tagged_cache_eta c t p :
  tagged {| names := names c; tags := tags c; notes := notes c |} t p <->
  tagged c t p.
Proof. now rewrite cache_eta. Qed.

(** A removal that returns found the path in the set and took it out,
    and nothing else changed in [tags]. *)
Lemma tags_remove_ok_inv t p w w' :
  tags_remove t p w = (Ok tt, w') ->
  tagged (cache w) t p /\ ~ tagged (cache w') t p /\
  forall t0 p0, (t0 <> t \/ p0 <> p) ->
    (tagged (cache w') t0 p0 <-> tagged (cache w) t0 p0).
Proof.
  unfold tags_remove, tags_getitem, set_tags, bind, get_cache, put_cache,
    ret, raise.
  simpl. destruct (tags (cache w) !! t) as [s|] eqn:Hs; simpl.
  - destruct (decide (p ∈ s)) as [Hp|Hp]; [|discriminate].
    intros [= <-]. simpl. split; [exists s; done|]. split.
    + rewrite tagged_insert. set_solver.
    + intros t0 p0 H. rewrite tagged_insert, tagged_cache_eta.
      unfold tagged. split.
      * intros [[<- Hp0]|[_ H0]]; [|done]. exists s. set_solver.
      * intros (s0 & Hs0 & Hp0). destruct (decide (t = t0)) as [<-|Hne].
        -- left. simplify_eq. set_solver.
        -- right. eauto.
  - destruct (decide (p ∈ (∅ : gset string))); [set_solver | discriminate].
Qed.

Lemma tags_remove_run t p w :
  tagged (cache w) t p -> exists w', tags_remove t p w = (Ok tt, w').
Proof.
  intros (s & Hs & Hp).
  unfold tags_remove, tags_getitem, set_tags, bind, get_cache, put_cache, ret.
  simpl. rewrite Hs. simpl. destruct (decide (p ∈ s)); [eauto | done].
Qed.

(** Whether it returns or raises, a removal puts no path in any set. *)
Lemma tags_remove_preserves_untagged t p t0 p0 :
  preserves (fun w => ~ tagged (cache w) t0 p0) (tags_remove t p).
Proof.
  intros w Hw.
  unfold tags_remove, tags_getitem, set_tags, bind, get_cache, put_cache,
    ret, raise.
  simpl. destruct (tags (cache w) !! t) as [s|] eqn:Hs; simpl.
  - destruct (decide (p ∈ s)); simpl; [|done].
    rewrite tagged_insert, tagged_cache_eta.
    intros [[<- Hp0]|[_ H0]]; [|done]. apply Hw. exists s. set_solver.
  - destruct (decide (p ∈ (∅ : gset string))); simpl; [set_solver|].
    rewrite tagged_insert, tagged_cache_eta. set_solver.
Qed.

Lemma tags_add_preserves_untagged t p t0 p0 :
  (t <> t0 \/ p <> p0) ->
  preserves (fun w => ~ tagged (cache w) t0 p0) (tags_add t p).
Proof.
  intros Hne w Hw.
  unfold tags_add, tags_getitem, set_tags, bind, get_cache, put_cache, ret.
  simpl. destruct (tags (cache w) !! t) as [s|] eqn:Hs; simpl.
  - rewrite tagged_insert, tagged_cache_eta.
    intros [[<- Hp0]|[_ H0]]; [|done]. apply Hw. exists s. set_solver.
  - rewrite tagged_insert, tagged_insert, tagged_cache_eta. set_solver.
Qed.

(** A loop of removals that returns has taken the path out of the set of
    every tag it went through. *)
Lemma for_each_tags_remove_ok_inv (l : list string) (skip : string -> bool) p w w' :
  for_each l (fun t => if negb (skip t) then tags_remove t p else ret tt) w
  = (Ok tt, w') ->
  forall t, t ∈ l -> skip t = false -> ~ tagged (cache w') t p.
Proof.
  revert w. induction l as [|t0 l IH]; intros w H t Ht Hskip.
  - inversion Ht.
  - simpl in H. apply bind_ok_inv in H as ([] & w1 & E & H).
    destruct (decide (t ∈ l)) as [Hl|Hl]; [now apply (IH w1)|].
    apply elem_of_cons in Ht as [->|Ht]; [|done].
    rewrite Hskip in E. cbn [negb] in E.
    apply tags_remove_ok_inv in E as (_ & Hgone & _).
    refine (preserves_ok (fun w => ~ tagged (cache w) t0 p) _ _ _ _ _ Hgone H).
    apply preserves_for_each. intros x.
    destruct (negb (skip x)); [apply tags_remove_preserves_untagged|].
    apply preserves_ret.
Qed.

(** ** [uncache_note] *)

(** C2, first part: on a path that is not indexed the call changes
    nothing. *)
Lemma uncache_note_not_indexed note w :
  w_notes w !! Path.str note = None -> uncache_note note w = (Ok tt, w).
Proof.
  intros H. unfold uncache_note, bind, get_cache. simpl.
  unfold w_notes in H. now rewrite H.
Qed.

Lemma del_names_ok_inv k w w' :
  del_names k w = (Ok tt, w') ->
  w_names w' = delete k (w_names w) /\ w_tags w' = w_tags w /\
  w_notes w' = w_notes w /\ fs w' = fs w.
Proof.
  unfold del_names, bind, get_cache, put_cache, raise. simpl.
  destruct (names (cache w) !! k); [|discriminate]. now intros [= <-].
Qed.

Lemma del_notes_ok_inv k w w' :
  del_notes k w = (Ok tt, w') ->
  w_notes w' = delete k (w_notes w) /\ w_tags w' = w_tags w /\
  w_names w' = w_names w /\ fs w' = fs w.
Proof.
  unfold del_notes, bind, get_cache, put_cache, raise. simpl.
  destruct (notes (cache w) !! k); [|discriminate]. now intros [= <-].
Qed.

Lemma tagged_w_tags w w' t p :
  w_tags w' = w_tags w -> tagged (cache w') t p <-> tagged (cache w) t p.
Proof. unfold tagged, w_tags. now intros ->. Qed.

(** What a call of [uncache_note] that returns has done to an indexed
    path: its entry is out of [notes], its name out of [names], and the
    path out of the set of each of its tags. *)
Lemma uncache_note_ok_inv note w w' e :
  w_notes w !! Path.str note = Some e ->
  uncache_note note w = (Ok tt, w') ->
  w_notes w' = delete (Path.str note) (w_notes w) /\
  w_names w' = delete (Entry.name e) (w_names w) /\
  fs w' = fs w /\
  (forall t, t ∈ Entry.tags e -> ~ tagged (cache w') t (Path.str note)) /\
  (forall t p, p <> Path.str note -> tagged (cache w) t p -> tagged (cache w') t p).
Proof.
  intros He H. unfold uncache_note in H.
  apply bind_ok_inv in H as (c & w0 & E & H). injection E as <- <-.
  unfold w_notes in He. rewrite He in H.
  apply bind_ok_inv in H as ([] & w1 & E1 & H).
  apply bind_ok_inv in H as ([] & w2 & E2 & H).
  apply del_names_ok_inv in E1 as (Hn1 & Ht1 & Ho1 & Hf1).
  apply del_notes_ok_inv in H as (Ho3 & Ht3 & Hn3 & Hf3).
  assert (forall B (proj : World -> B),
             (forall t q, keeps proj (tags_remove t q)) -> proj w2 = proj w1)
    as Hkeep.
  { intros B proj Hr. eapply keeps_ok; [|exact E2].
    apply keeps_for_each. intros x. apply Hr. }
  split; [rewrite Ho3, (Hkeep _ w_notes), Ho1 by auto with keeps; done|].
  split; [rewrite Hn3, (Hkeep _ w_names), Hn1 by auto with keeps; done|].
  split; [rewrite Hf3, (Hkeep _ fs), Hf1 by auto with keeps; done|].
  split.
  - intros t Ht. rewrite (tagged_w_tags _ _ _ _ Ht3).
    refine (for_each_tags_remove_ok_inv (Entry.tags e) (fun _ => false)
              (Path.str note) w1 w2 _ t Ht eq_refl).
    exact E2.
  - intros t p Hp Htag. rewrite (tagged_w_tags _ _ _ _ Ht3).
    rewrite <- (tagged_w_tags _ _ t p Ht1) in Htag.
    clear -E2 Hp Htag. revert w1 E2 Htag.
    induction (Entry.tags e) as [|t0 l IH]; intros w1 E2 Htag.
    + now injection E2 as <-.
    + simpl in E2. apply bind_ok_inv in E2 as ([] & w3 & E & E2).
      apply (IH w3 E2).
      apply tags_remove_ok_inv in E as (_ & _ & Hsame).
      apply Hsame; auto.
Qed.

(** C2, on an index that agrees with itself: when the name of the entry
    is in [names], the tags of the entry are distinct and each of their
    sets holds the path, [uncache_note] returns. *)
Lemma uncache_note_returns note w e :
  w_notes w !! Path.str note = Some e ->
  is_Some (w_names w !! Entry.name e) ->
  NoDup (Entry.tags e) ->
  (forall t, t ∈ Entry.tags e -> tagged (cache w) t (Path.str note)) ->
  exists w', uncache_note note w = (Ok tt, w').
Proof.
  intros He [v Hv] Hnd Htags. unfold uncache_note.
  erewrite bind_run by reflexivity.
  unfold w_notes in He. rewrite He.
  assert (exists w1, del_names (Entry.name e) w = (Ok tt, w1) /\
                     w_tags w1 = w_tags w /\ w_notes w1 = w_notes w)
    as (w1 & E1 & Ht1 & Ho1).
  { unfold del_names, bind, get_cache, put_cache. simpl.
    unfold w_names in Hv. rewrite Hv. eauto. }
  rewrite (bind_run _ _ _ _ _ E1).
  assert (exists w2, for_each (Entry.tags e)
                       (fun tag => tags_remove tag (Path.str note)) w1
                     = (Ok tt, w2) /\ w_notes w2 = w_notes w1)
    as (w2 & E2 & Ho2).
  { assert (forall t, t ∈ Entry.tags e -> tagged (cache w1) t (Path.str note))
      as Htags1.
    { intros t Ht. rewrite (tagged_w_tags _ _ _ _ Ht1). auto. }
    clear -Hnd Htags1. revert w1 Htags1.
    induction Hnd as [|t0 l Hnotin _ IH]; intros w1 Htags1.
    - exists w1. done.
    - destruct (tags_remove_run t0 (Path.str note) w1) as (w3 & E3);
        [apply Htags1; left|].
      simpl. rewrite (bind_run _ _ _ _ _ E3).
      destruct (IH w3) as (w2 & E2 & Ho2).
      + intros t Ht.
        apply tags_remove_ok_inv in E3 as (_ & _ & Hsame).
        apply Hsame; [left; set_solver|]. apply Htags1. now right.
      + exists w2. split; [done|]. rewrite Ho2.
        eapply (keeps_ok w_notes); [|exact E3]. auto with keeps. }
  rewrite (bind_run _ _ _ _ _ E2).
  unfold del_notes, bind, get_cache, put_cache. simpl.
  change (notes (cache w2)) with (w_notes w2). rewrite Ho2, Ho1.
  unfold w_notes. rewrite He. eauto.
Qed.

Section CacheNote.

Variable cfg : Config.
Variable expanduser : Path.t -> Path.t.

Abbreviation canonical := (get_note_path_for_note_name cfg expanduser).

(** What a call that returns has done, when the file was there: [w1] is
    the world once the file has been moved, if it had to be. *)
Lemma cache_note_ok_steps note w r w' f :
  fs w !! Path.str note = Some f ->
  cache_note cfg expanduser note w = (Ok r, w') ->
  exists N T w1,
    name_of_text f = Ok N /\ tags_of_text f = Ok T /\
    r = Some (canonical N) /\
    (if negb (Path.eqb (canonical N) note)
     then rename note (canonical N) ;;; uncache_note note
     else ret tt) w = (Ok tt, w1) /\
    fs w' = fs w1 /\
    w_names w' = <[N := Path.str (canonical N)]> (w_names w1) /\
    w_notes w'
      = <[Path.str (canonical N) := {| Entry.name := N; Entry.tags := T |}]>
          (w_notes w1) /\
    (forall t, t ∈ T -> tagged (cache w') t (Path.str (canonical N))) /\
    (forall e0 t, w_notes w1 !! Path.str (canonical N) = Some e0 ->
       t ∈ Entry.tags e0 -> t ∉ T ->
       ~ tagged (cache w') t (Path.str (canonical N))) /\
    (forall t q, q <> Path.str (canonical N) ->
       ~ tagged (cache w1) t q -> ~ tagged (cache w') t q).
Proof.
  intros Hf H. unfold cache_note in H.
  rewrite (bind_run _ _ _ _ _ (exists_run_true _ _ _ Hf)) in H. cbn [negb] in H.
  apply bind_ok_inv in H as (N & w1 & E & H).
  rewrite (extract_note_name_run _ _ _ Hf) in E. injection E as HN <-.
  apply bind_ok_inv in H as (T & w1 & E & H).
  rewrite (extract_note_tags_run _ _ _ Hf) in E. injection E as HT <-.
  set (p := canonical N) in *.
  apply bind_ok_inv in H as ([] & w1 & Estep & H).
  exists N, T, w1. fold p. split; [done|]. split; [done|].
  apply bind_ok_inv in H as ([] & w2 & E & H).
  rewrite set_names_run in E. injection E as <-.
  apply bind_ok_inv in H as (c & w3 & E & H).
  injection E as <- <-.
  apply bind_ok_inv in H as ([] & w3 & E3 & H).
  apply bind_ok_inv in H as ([] & w4 & E4 & H).
  apply bind_ok_inv in H as ([] & w5 & E5 & H).
  injection H as <- <-.
  rewrite set_notes_run in E5. injection E5 as <-.
  cbn [notes cache] in E3.
  set (w2 := {| cache := {| names := <[N := Path.str p]> (names (cache w1));
                            tags := tags (cache w1);
                            notes := notes (cache w1) |};
                fs := fs w1 |}) in *.
  assert (forall B (proj : World -> B),
             (forall t q, keeps proj (tags_remove t q)) ->
             (forall t q, keeps proj (tags_add t q)) ->
             proj w4 = proj w2) as Hkeep.
  { intros B proj Hr Ha.
    assert (proj w4 = proj w3) as ->.
    { eapply keeps_ok; [|exact E4]. apply keeps_for_each. intros; apply Ha. }
    eapply keeps_ok; [|exact E3]. apply keeps_for_each.
    intros x. destruct (negb (bool_decide (x ∈ T)));
      [apply Hr | apply keeps_ret]. }
  split; [done|]. split; [exact Estep|].
  split; [apply (Hkeep _ fs); auto with keeps|].
  split; [apply (Hkeep _ w_names); auto with keeps|].
  split.
  { unfold w_notes. simpl. f_equal.
    apply (Hkeep _ w_notes); auto with keeps. }
  split.
  { intros t Ht. unfold tagged. simpl.
    destruct (for_each_tags_add T (Path.str p) w3) as (w4' & E4' & Htag).
    rewrite E4 in E4'. injection E4' as <-. now apply Htag. }
  split.
  { intros e0 t He0 Ht HtT. unfold w_notes in He0. rewrite He0 in E3.
    change (~ tagged (cache w4) t (Path.str p)).
    assert (~ tagged (cache w3) t (Path.str p)) as H3.
    { refine (for_each_tags_remove_ok_inv (Entry.tags e0)
                (fun t => bool_decide (t ∈ T)) (Path.str p) w2 w3 E3 t Ht _).
      now apply bool_decide_eq_false_2. }
    clear -E4 H3 HtT. revert w3 E4 H3.
    induction T as [|t0 T IH]; intros w3 E4 H3.
    - now injection E4 as <-.
    - simpl in E4. destruct (tags_add_ok t0 (Path.str p) w3) as (w5 & E5 & _).
      rewrite (bind_run _ _ _ _ _ E5) in E4.
      apply (IH ltac:(set_solver) w5 E4).
      refine (preserves_ok (fun w => ~ tagged (cache w) t (Path.str p))
                _ _ _ _ _ H3 E5).
      apply tags_add_preserves_untagged. left. set_solver. }
  intros t q Hq H1. change (~ tagged (cache w4) t q).
  assert (~ tagged (cache w2) t q) as H2 by exact H1.
  assert (~ tagged (cache w3) t q) as H3.
  { refine (preserves_ok (fun w => ~ tagged (cache w) t q) _ _ _ _ _ H2 E3).
    apply preserves_for_each. intros x.
    destruct (negb (bool_decide (x ∈ T)));
      [apply tags_remove_preserves_untagged | apply preserves_ret]. }
  refine (preserves_ok (fun w => ~ tagged (cache w) t q) _ _ _ _ _ H3 E4).
  apply preserves_for_each. intros x.
  apply tags_add_preserves_untagged. right. congruence.
Qed.

(** The move of the file, when the parsed name asks for one. *)
Lemma relocate_fs note p w w1 f :
  fs w !! Path.str note = Some f ->
  (if negb (Path.eqb p note)
   then rename note p ;;; uncache_note note
   else ret tt) w = (Ok tt, w1) ->
  fs w1 = (if Path.eqb p note then fs w
           else <[Path.str p := f]> (delete (Path.str note) (fs w))).
Proof.
  intros Hf Estep. destruct (Path.eqb p note); cbn [negb] in Estep.
  - now injection Estep as <-.
  - apply bind_ok_inv in Estep as ([] & w2 & E & Estep).
    rewrite (keeps_ok _ _ _ _ _ (uncache_note_keeps_fs note) Estep).
    unfold rename in E. rewrite Hf in E. now injection E as <-.
Qed.

Lemma cache_note_ok_inv note w r w' f :
  fs w !! Path.str note = Some f ->
  cache_note cfg expanduser note w = (Ok r, w') ->
  exists N T,
    name_of_text f = Ok N /\ tags_of_text f = Ok T /\
    r = Some (canonical N) /\
    fs w' = (if Path.eqb (canonical N) note then fs w
             else <[Path.str (canonical N) := f]> (delete (Path.str note) (fs w))) /\
    w_names w' !! N = Some (Path.str (canonical N)) /\
    w_notes w' !! Path.str (canonical N)
      = Some {| Entry.name := N; Entry.tags := T |} /\
    (forall t, t ∈ T -> tagged (cache w') t (Path.str (canonical N))).
Proof.
  intros Hf H.
  destruct (cache_note_ok_steps _ _ _ _ _ Hf H)
    as (N & T & w1 & HN & HT & Hr & Estep & Hfs & Hnames & Hnotes & Htags & _).
  exists N, T. repeat (split; [done|]).
  split; [rewrite Hfs; now apply relocate_fs|].
  split; [rewrite Hnames; apply lookup_insert_eq|].
  split; [rewrite Hnotes; apply lookup_insert_eq|]. exact Htags.
Qed.

(** The tag diff of a call that returns, on a path that was indexed and
    keeps its place: the path is out of the set of every former tag that
    the note no longer has, and in the set of every tag it has. *)
Lemma cache_note_tag_diff note w r w' f N T e0 :
  fs w !! Path.str note = Some f ->
  name_of_text f = Ok N -> tags_of_text f = Ok T ->
  Path.eqb (canonical N) note = true ->
  w_notes w !! Path.str note = Some e0 ->
  cache_note cfg expanduser note w = (Ok r, w') ->
  (forall t, t ∈ Entry.tags e0 -> t ∉ T -> ~ tagged (cache w') t (Path.str note)) /\
  (forall t, t ∈ T -> tagged (cache w') t (Path.str note)).
Proof.
  intros Hf HN HT Heq He0 H.
  destruct (cache_note_ok_steps _ _ _ _ _ Hf H)
    as (N' & T' & w1 & HN' & HT' & _ & Estep & _ & _ & _ & Htags & Hdiff & _).
  rewrite HN in HN'. injection HN' as <-.
  rewrite HT in HT'. injection HT' as <-.
  rewrite Heq in Estep. cbn [negb] in Estep. injection Estep as <-.
  rewrite <- (path_eqb_eq _ _ Heq). split; [|exact Htags].
  intros t Ht HtT. apply (Hdiff e0); [|done..].
  now rewrite (path_eqb_eq _ _ Heq).
Qed.

(** Rename on write, for a call that returns: the file is at the
    canonical path and no longer at the old one; the old path has no
    entry in [notes], its former name none in [names] unless the note
    kept it, and the old path is in the set of none of its former tags;
    the note is indexed under the canonical path. *)
Lemma cache_note_rename_on_write note w r w' f N T :
  fs w !! Path.str note = Some f ->
  name_of_text f = Ok N -> tags_of_text f = Ok T ->
  Path.eqb (canonical N) note = false ->
  cache_note cfg expanduser note w = (Ok r, w') ->
  r = Some (canonical N) /\
  fs w' !! Path.str note = None /\
  fs w' !! Path.str (canonical N) = Some f /\
  w_notes w' !! Path.str note = None /\
  w_notes w' !! Path.str (canonical N)
    = Some {| Entry.name := N; Entry.tags := T |} /\
  w_names w' !! N = Some (Path.str (canonical N)) /\
  (forall e0, w_notes w !! Path.str note = Some e0 ->
     (Entry.name e0 <> N -> w_names w' !! Entry.name e0 = None) /\
     (forall t, t ∈ Entry.tags e0 -> ~ tagged (cache w') t (Path.str note))).
Proof.
  intros Hf HN HT Hne H.
  destruct (cache_note_ok_steps _ _ _ _ _ Hf H)
    as (N' & T' & w1 & HN' & HT' & Hr & Estep & Hfs & Hnames & Hnotes
        & _ & _ & Hother).
  rewrite HN in HN'. injection HN' as <-.
  rewrite HT in HT'. injection HT' as <-.
  pose proof (relocate_fs _ _ _ _ _ Hf Estep) as Hfs1.
  rewrite Hne in Estep, Hfs1. cbn [negb] in Estep.
  apply path_eqb_neq in Hne.
  apply bind_ok_inv in Estep as ([] & w0 & E & Estep).
  assert (cache w0 = cache w) as Hc0.
  { apply (keeps_ok cache _ _ _ _ (rename_keeps_cache _ _) E). }
  split; [done|]. rewrite Hfs, Hfs1, Hnotes, Hnames.
  split; [rewrite lookup_insert_ne by done; apply lookup_delete_eq|].
  split; [apply lookup_insert_eq|].
  split.
  { rewrite lookup_insert_ne by done.
    destruct (w_notes w0 !! Path.str note) as [e0|] eqn:He0.
    - destruct (uncache_note_ok_inv _ _ _ _ He0 Estep) as (-> & _).
      apply lookup_delete_eq.
    - rewrite (uncache_note_not_indexed _ _ He0) in Estep.
      injection Estep as <-. exact He0. }
  split; [apply lookup_insert_eq|].
  split; [apply lookup_insert_eq|].
  intros e0 He0. unfold w_notes in He0. rewrite <- Hc0 in He0.
  destruct (uncache_note_ok_inv _ _ _ _ He0 Estep)
    as (_ & Hn1 & _ & Hgone & _).
  split.
  - intros HneN. rewrite lookup_insert_ne by done.
    rewrite Hn1. apply lookup_delete_eq.
  - intros t Ht. apply Hother; [done|]. now apply Hgone.
Qed.

(** When the file is missing the call is [uncache_note] and returns
    [None]. *)
Lemma cache_note_missing note w :
  fs w !! Path.str note = None ->
  cache_note cfg expanduser note w = (uncache_note note ;;; ret None) w.
Proof.
  intros Hf. unfold cache_note.
  now rewrite (bind_run _ _ _ _ _ (exists_run_false _ _ Hf)).
Qed.

Lemma cache_note_some_exists note w p w' :
  cache_note cfg expanduser note w = (Ok (Some p), w') -> is_Some (fs w !! Path.str note).
Proof.
  intros H. destruct (fs w !! Path.str note) as [f|] eqn:Hf; [eauto|].
  rewrite (cache_note_missing _ _ Hf) in H.
  apply bind_ok_inv in H as ([] & w1 & _ & H). discriminate H.
Qed.

Lemma set_names_id k v w :
  names (cache w) !! k = Some v -> set_names k v w = (Ok tt, w).
Proof.
  intros H. rewrite set_names_run. rewrite (insert_id _ _ _ H).
  now rewrite cache_eta, world_eta.
Qed.

Lemma set_notes_id k e w :
  notes (cache w) !! k = Some e -> set_notes k e w = (Ok tt, w).
Proof.
  intros H. rewrite set_notes_run. rewrite (insert_id _ _ _ H).
  now rewrite cache_eta, world_eta.
Qed.

Lemma tags_add_id t p w :
  tagged (cache w) t p -> tags_add t p w = (Ok tt, w).
Proof.
  intros (s & Hs & Hp).
  unfold tags_add, tags_getitem, set_tags, bind, get_cache, put_cache, ret.
  simpl. rewrite Hs. simpl.
  rewrite (subseteq_union_1_L {[p]} s) by now apply singleton_subseteq_l.
  now rewrite (insert_id _ _ _ Hs), cache_eta, world_eta.
Qed.

Lemma for_each_id {A} (l : list A) body w :
  (forall x, x ∈ l -> body x w = (Ok tt, w)) ->
  for_each l body w = (Ok tt, w).
Proof.
  induction l as [|x l IH]; intros H; simpl; [reflexivity|].
  rewrite (bind_run _ _ _ _ _ (H x ltac:(left))).
  apply IH. intros y Hy. apply H. now right.
Qed.

(** Indexing a note that is already indexed as it stands changes
    nothing. *)
Lemma cache_note_indexed_unchanged w f N T :
  fs w !! Path.str (canonical N) = Some f ->
  name_of_text f = Ok N -> tags_of_text f = Ok T ->
  w_names w !! N = Some (Path.str (canonical N)) ->
  w_notes w !! Path.str (canonical N)
    = Some {| Entry.name := N; Entry.tags := T |} ->
  (forall t, t ∈ T -> tagged (cache w) t (Path.str (canonical N))) ->
  cache_note cfg expanduser (canonical N) w = (Ok (Some (canonical N)), w).
Proof.
  intros Hf HN HT Hnames Hnotes Htags. unfold cache_note.
  rewrite (bind_run _ _ _ _ _ (exists_run_true _ _ _ Hf)). cbn [negb].
  erewrite bind_run
    by (rewrite (extract_note_name_run _ _ _ Hf), HN; reflexivity).
  erewrite bind_run
    by (rewrite (extract_note_tags_run _ _ _ Hf), HT; reflexivity).
  rewrite path_eqb_refl. cbn [negb].
  erewrite bind_run by reflexivity.
  erewrite bind_run by (apply set_names_id; exact Hnames).
  erewrite bind_run by reflexivity.
  unfold w_notes in Hnotes. rewrite Hnotes. cbn [Entry.tags].
  erewrite bind_run.
  2:{ apply for_each_id. intros x Hx.
      now rewrite (bool_decide_eq_true_2 _ Hx). }
  erewrite bind_run.
  2:{ apply for_each_id. intros x Hx. apply tags_add_id. now apply Htags. }
  erewrite bind_run by (apply set_notes_id; exact Hnotes).
  reflexivity.
Qed.

(** On a path that is not indexed, for a note whose canonical path is not
    indexed either, the call returns. *)
Lemma cache_note_fresh_returns note w f N T :
  fs w !! Path.str note = Some f ->
  name_of_text f = Ok N -> tags_of_text f = Ok T ->
  w_notes w !! Path.str note = None ->
  w_notes w !! Path.str (canonical N) = None ->
  exists w', cache_note cfg expanduser note w = (Ok (Some (canonical N)), w').
Proof.
  intros Hf HN HT Hold Hnew. unfold cache_note.
  rewrite (bind_run _ _ _ _ _ (exists_run_true _ _ _ Hf)). cbn [negb].
  erewrite bind_run
    by (rewrite (extract_note_name_run _ _ _ Hf), HN; reflexivity).
  erewrite bind_run
    by (rewrite (extract_note_tags_run _ _ _ Hf), HT; reflexivity).
  set (p := canonical N) in *.
  assert (exists w1, (if negb (Path.eqb p note)
                      then rename note p ;;; uncache_note note
                      else ret tt) w = (Ok tt, w1) /\ cache w1 = cache w)
    as (w1 & E1 & Hc1).
  { destruct (Path.eqb p note); cbn [negb]; [eauto|].
    unfold bind at 1, rename at 1. rewrite Hf.
    rewrite uncache_note_not_indexed by exact Hold. eauto. }
  rewrite (bind_run _ _ _ _ _ E1).
  rewrite (bind_run _ _ _ _ _ (set_names_run _ _ _)).
  erewrite bind_run by reflexivity. cbn [notes cache].
  unfold w_notes in Hnew. rewrite Hc1, Hnew. cbn [for_each].
  erewrite bind_run by reflexivity.
  match goal with
  | |- context [bind (for_each T ?body) _ ?w2] =>
      destruct (for_each_tags_add T (Path.str p) w2) as (w3 & E3 & _)
  end.
  rewrite (bind_run _ _ _ _ _ E3).
  rewrite (bind_run _ _ _ _ _ (set_notes_run _ _ _)).
  eauto.
Qed.

End CacheNote.

(** The tag diff of the specification: the tags of a note go from [a, b]
    to [b, c]. *)
Example cache_note_retag_ab_bc :
  fst (cache_note cfg0 id (Path.of_string "n.md") ab_retagged)
  = Ok (Some (Path.of_string "n.md")) /\
  tags (cache (snd (cache_note cfg0 id (Path.of_string "n.md") ab_retagged))) !! "a"
  = Some ∅ /\
  tags (cache (snd (cache_note cfg0 id (Path.of_string "n.md") ab_retagged))) !! "b"
  = Some {[ "n.md" ]} /\
  tags (cache (snd (cache_note cfg0 id (Path.of_string "n.md") ab_retagged))) !! "c"
  = Some {[ "n.md" ]}.
Proof. repeat split; vm_compute; reflexivity. Qed.

(** Rename on write: [foo.md], now named [Bar Baz], ends up at
    [bar_baz.md], and the index holds the new path only. *)
Example cache_note_foo_to_bar_baz :
  Path.str (get_note_path_for_note_name cfg0 id "Bar Baz") = "bar_baz.md" /\
  fst (cache_note cfg0 id (Path.of_string "foo.md") foo_renamed)
  = Ok (Some (Path.of_string "bar_baz.md")) /\
  map_to_list (fs (snd (cache_note cfg0 id (Path.of_string "foo.md") foo_renamed)))
  = [("bar_baz.md", "## Bar Baz" ++ nl ++ "#a" ++ nl)] /\
  map_to_list (names (cache (snd (cache_note cfg0 id (Path.of_string "foo.md") foo_renamed))))
  = [("Bar Baz", "bar_baz.md")] /\
  map_to_list (notes (cache (snd (cache_note cfg0 id (Path.of_string "foo.md") foo_renamed))))
  = [("bar_baz.md", {| Entry.name := "Bar Baz"; Entry.tags := ["a"] |})] /\
  tags (cache (snd (cache_note cfg0 id (Path.of_string "foo.md") foo_renamed))) !! "a"
  = Some {[ "bar_baz.md" ]}.
Proof. repeat split; vm_compute; reflexivity. Qed.

(** ** Round trip *)

(** C1: a call of [cache_note] that returns, on a file whose text parses
    to the name [N] and the tags [T], returns the canonical path of [N],
    binds [names[N]] to it and puts it in [tags[t]] for every [t] of [T];
    and the shopping-list note written to [tmp.md] ends up indexed under
    [shopping_list.md]. *)
Theorem cache_note_round_trip :
  (forall cfg expanduser note w f N T r w',
      fs w !! Path.str note = Some f ->
      name_of_text f = Ok N -> tags_of_text f = Ok T ->
      cache_note cfg expanduser note w = (Ok r, w') ->
      r = Some (get_note_path_for_note_name cfg expanduser N) /\
      names (cache w') !! N
        = Some (Path.str (get_note_path_for_note_name cfg expanduser N)) /\
      forall t, t ∈ T ->
        tagged (cache w') t
          (Path.str (get_note_path_for_note_name cfg expanduser N)))
  /\ (exists w',
        cache_note cfg0 id (Path.of_string "tmp.md") shopping_world
        = (Ok (Some (Path.of_string "shopping_list.md")), w') /\
        names (cache w') !! "Shopping List" = Some "shopping_list.md" /\
        tags (cache w') !! "errands" = Some {[ "shopping_list.md" ]} /\
        tags (cache w') !! "home" = Some {[ "shopping_list.md" ]}).
Proof.
  split.
  - intros cfg expanduser note w f N T r w' Hf HN HT H.
    destruct (cache_note_ok_inv _ _ _ _ _ _ _ Hf H)
      as (N' & T' & HN' & HT' & Hr & _ & Hnames & _ & Htags).
    rewrite HN in HN'. injection HN' as <-.
    rewrite HT in HT'. injection HT' as <-. auto.
  - eexists. split; [vm_compute; reflexivity|].
    repeat split; vm_compute; reflexivity.
Qed.

Lemma cache_note_round_trip_witness :
  names (cache (snd (cache_note cfg0 id (Path.of_string "tmp.md") shopping_world)))
    !! "Shopping List" = Some "shopping_list.md".
Proof.
  refine (proj1 (proj2 (proj1 cache_note_round_trip cfg0 id
            (Path.of_string "tmp.md") shopping_world shopping_text
            "Shopping List" ["errands"; "home"]
            (Some (Path.of_string "shopping_list.md"))
            (snd (cache_note cfg0 id (Path.of_string "tmp.md") shopping_world))
            _ _ _ _)));
    vm_compute; reflexivity.
Defined.

(** ** Idempotence *)

(** C9: when [cache_note] has indexed a note and returned its path,
    calling it again on that path, the file unmodified, returns the same
    path and leaves [notes], [names] and [tags] (and the file system) as
    the first call left them. *)
Theorem cache_note_idempotent cfg expanduser note w p w1 :
  cache_note cfg expanduser note w = (Ok (Some p), w1) ->
  cache_note cfg expanduser p w1 = (Ok (Some p), w1).
Proof.
  intros H.
  destruct (cache_note_some_exists _ _ _ _ _ _ H) as [f Hf].
  destruct (cache_note_ok_inv _ _ _ _ _ _ _ Hf H)
    as (N & T & HN & HT & [= ->] & Hfs & Hnames & Hnotes & Htags).
  eapply cache_note_indexed_unchanged; eauto.
  rewrite Hfs.
  destruct (Path.eqb _ note) eqn:E.
  - now rewrite (path_eqb_eq _ _ E).
  - apply lookup_insert_eq.
Qed.

Lemma cache_note_idempotent_witness :
  cache_note cfg0 id (Path.of_string "shopping_list.md")
    (snd (cache_note cfg0 id (Path.of_string "tmp.md") shopping_world))
  = (Ok (Some (Path.of_string "shopping_list.md")),
     snd (cache_note cfg0 id (Path.of_string "tmp.md") shopping_world)).
Proof.
  apply (cache_note_idempotent cfg0 id (Path.of_string "tmp.md") shopping_world).
  vm_compute; reflexivity.
Defined.

(** ** The values of [names] *)

Section NamesCanonical.

Variable cfg : Config.
Variable expanduser : Path.t -> Path.t.

Local Abbreviation Inv :=
  (fun w : World => names_canonical cfg expanduser (w_names w)).

Lemma keeps_names_canonical {A} (m : M A) : keeps w_names m -> preserves Inv m.
Proof. apply (keeps_preserves w_names (names_canonical cfg expanduser)). Qed.

Lemma del_names_canonical k : preserves Inv (del_names k).
Proof.
  intros w Hw. unfold del_names, bind, get_cache, put_cache, raise.
  unfold w_names in *. simpl.
  destruct (names (cache w) !! k); simpl; [|exact Hw].
  intros N v [_ H]%lookup_delete_Some. now apply Hw.
Qed.

Lemma set_names_canonical N :
  preserves Inv
    (set_names N (Path.str (get_note_path_for_note_name cfg expanduser N))).
Proof.
  intros w Hw. rewrite set_names_run. unfold w_names in *. simpl.
  intros N' v [[<- <-]|[_ H]]%lookup_insert_Some; [reflexivity|].
  now apply Hw.
Qed.

Lemma rename_keeps_names note target : keeps w_names (rename note target).
Proof. prim. Qed.

Lemma uncache_note_canonical note : preserves Inv (uncache_note note).
Proof.
  unfold uncache_note.
  apply preserves_bind; [apply keeps_names_canonical; auto with keeps|].
  intros c. destruct (notes c !! Path.str note) as [e|];
    [|apply preserves_ret].
  apply preserves_bind; [apply del_names_canonical|]. intros _.
  apply preserves_bind; intros; apply keeps_names_canonical;
    [apply keeps_for_each; intros|]; auto with keeps.
Qed.

Lemma cache_note_canonical note :
  preserves Inv (cache_note cfg expanduser note).
Proof.
  unfold cache_note.
  apply preserves_bind; [apply keeps_names_canonical; auto with keeps|].
  intros ex. destruct ex; cbn [negb].
  2:{ apply preserves_bind; [apply uncache_note_canonical|].
      intros _. apply preserves_ret. }
  apply preserves_bind; [apply keeps_names_canonical; auto with keeps|].
  intros N.
  apply preserves_bind; [apply keeps_names_canonical; auto with keeps|].
  intros T.
  apply preserves_bind.
  { destruct (negb _); [|apply preserves_ret].
    apply preserves_bind; [|intros _; apply uncache_note_canonical].
    apply keeps_names_canonical, rename_keeps_names. }
  intros _. apply preserves_bind; [apply set_names_canonical|]. intros _.
  apply keeps_names_canonical.
  apply keeps_bind; [auto with keeps|]. intros c.
  apply keeps_bind.
  { apply keeps_for_each. intros x.
    destruct (negb _); auto with keeps. }
  intros _. apply keeps_bind; [apply keeps_for_each; auto with keeps|].
  intros _. apply keeps_bind; auto with keeps.
Qed.

End NamesCanonical.

(** C10: in every index reached from the empty one by calls of
    [cache_note] and [uncache_note], each entry of [names] maps its name
    to the canonical path [get_note_path_for_note_name] computes for that
    name. *)
Theorem names_hold_canonical_paths cfg expanduser c N v :
  reachable cfg expanduser c ->
  names c !! N = Some v ->
  v = Path.str (get_note_path_for_note_name cfg expanduser N).
Proof.
  intros Hc. revert N v.
  change (names_canonical cfg expanduser (names c)).
  induction Hc as [|c files note _ IH|c files note _ IH].
  - intros N v H. simpl in H. now rewrite lookup_empty in H.
  - now apply (cache_note_canonical cfg expanduser note
                 {| cache := c; fs := files |}).
  - now apply (uncache_note_canonical cfg expanduser note
                 {| cache := c; fs := files |}).
Qed.

Lemma names_hold_canonical_paths_witness :
  "shopping_list.md"
  = Path.str (get_note_path_for_note_name cfg0 id "Shopping List").
Proof.
  apply (names_hold_canonical_paths cfg0 id
           (cache (snd (cache_note cfg0 id (Path.of_string "tmp.md")
                          {| cache := empty_cache; fs := fs shopping_world |})))).
  - apply reach_cache_note, reach_empty.
  - vm_compute; reflexivity.
Defined.

(** ** A repeated tag *)

Lemma dup_world_indexed :
  cache_note cfg0 id (Path.of_string "n.md") (file_world "n.md" dup_text)
  = (Ok (Some (Path.of_string "n.md")), dup_world) /\
  notes (cache dup_world) !! "n.md"
  = Some {| Entry.name := "N"; Entry.tags := ["a"; "a"] |} /\
  names (cache dup_world) !! "N" = Some "n.md" /\
  tags (cache dup_world) !! "a" = Some {[ "n.md" ]}.
Proof. repeat split; vm_compute; reflexivity. Qed.

Lemma dup_world_reachable : reachable cfg0 id (cache dup_world).
Proof. apply (reach_cache_note cfg0 id empty_cache), reach_empty. Qed.

(** C2, the code at the failing input: the path is indexed, with a tag
    line that repeats a tag; [uncache_note] raises [KeyError] at the
    second removal from [tags[a]], after it has deleted the name, and
    leaves the entry of the path in [notes]. *)
Theorem uncache_note_repeated_tag :
  notes (cache dup_world) !! "n.md"
  = Some {| Entry.name := "N"; Entry.tags := ["a"; "a"] |} /\
  fst (uncache_note (Path.of_string "n.md") dup_world) = Raise KeyError /\
  notes (cache (snd (uncache_note (Path.of_string "n.md") dup_world))) !! "n.md"
  = Some {| Entry.name := "N"; Entry.tags := ["a"; "a"] |} /\
  names (cache (snd (uncache_note (Path.of_string "n.md") dup_world))) !! "N"
  = None.
Proof. repeat split; vm_compute; reflexivity. Qed.

(** C8, the code at the failing input: the file of the note with the
    repeated tag is gone, and [cache_note] raises [KeyError]. *)
Theorem cache_note_missing_file_repeated_tag :
  fs dup_deleted !! "n.md" = None /\
  fst (cache_note cfg0 id (Path.of_string "n.md") dup_deleted) = Raise KeyError.
Proof. split; vm_compute; reflexivity. Qed.

(** C7, the code at the failing input: the note indexed with the tags
    [a, a] now has the tag line [#b]; [cache_note] raises [KeyError] at
    the second removal from [tags[a]], before any new tag is added. *)
Theorem cache_note_retag_repeated_tag :
  fst (cache_note cfg0 id (Path.of_string "n.md") dup_retagged) = Raise KeyError /\
  tags (cache (snd (cache_note cfg0 id (Path.of_string "n.md") dup_retagged))) !! "b"
  = None /\
  notes (cache (snd (cache_note cfg0 id (Path.of_string "n.md") dup_retagged))) !! "n.md"
  = Some {| Entry.name := "N"; Entry.tags := ["a"; "a"] |}.
Proof. repeat split; vm_compute; reflexivity. Qed.

(** C6, the code at the failing input: the first line of the note indexed
    with the tags [a, a] now names it [Bar Baz]; [cache_note] moves the
    file to [bar_baz.md], then raises [KeyError] while removing the old
    entry, which stays in [notes], and the new path is not indexed. *)
Theorem cache_note_rename_repeated_tag :
  fst (cache_note cfg0 id (Path.of_string "n.md") dup_renamed) = Raise KeyError /\
  fs (snd (cache_note cfg0 id (Path.of_string "n.md") dup_renamed)) !! "bar_baz.md"
  = Some ("## Bar Baz" ++ nl ++ "#a #a" ++ nl) /\
  fs (snd (cache_note cfg0 id (Path.of_string "n.md") dup_renamed)) !! "n.md"
  = None /\
  notes (cache (snd (cache_note cfg0 id (Path.of_string "n.md") dup_renamed))) !! "n.md"
  = Some {| Entry.name := "N"; Entry.tags := ["a"; "a"] |} /\
  notes (cache (snd (cache_note cfg0 id (Path.of_string "n.md") dup_renamed))) !! "bar_baz.md"
  = None.
Proof. repeat split; vm_compute; reflexivity. Qed.

(** * The rest of the program *)

(** ** [Config.get] *)

Lemma split_on_dotless_app a b :
  dotless a ->
  Str.split_on "." (a ++ String "." b) = a :: Str.split_on "." b.
Proof.
  unfold dotless. induction a as [|c a IH]; intros Ha; [reflexivity|].
  change (String c a ++ String "." b) with (String c (a ++ String "." b)).
  cbn [Str.split_on] in *.
  destruct (Ascii.eqb c "."); [discriminate Ha|].
  destruct (Str.split_on "." a) as [|t ts] eqn:E.
  - injection Ha as <-. discriminate E.
  - injection Ha as -> ->. now rewrite (IH eq_refl).
Qed.

(** A dotted path splits back into the keys it was joined from. *)
Lemma split_on_join keys :
  keys <> [] -> Forall dotless keys ->
  Str.split_on "." (Str.join "." keys) = keys.
Proof.
  induction keys as [|k keys IH]; intros Hne Hd; [done|].
  apply Forall_cons in Hd as [Hk Hd].
  destruct keys as [|k' keys]; [exact Hk|].
  change (Str.join "." (k :: k' :: keys))
    with (k ++ String "." (Str.join "." (k' :: keys))).
  rewrite (split_on_dotless_app _ _ Hk). f_equal. now apply IH.
Qed.

Lemma get_loop_mandatory cfg keys v :
  get_loop cfg keys None = Value v <-> descend cfg keys = Some v.
Proof.
  revert cfg. induction keys as [|k keys IH]; intros cfg; simpl.
  - split; congruence.
  - destruct cfg as [items|s|l|]; simpl.
    + destruct (assoc k items); [apply IH | split; discriminate].
    + destruct (contains s k); split; discriminate.
    + destruct (existsb (is_str k) l); split; discriminate.
    + split; discriminate.
Qed.

Lemma get_loop_app cfg keys c rest default :
  descend cfg keys = Some c ->
  get_loop cfg (keys ++ rest)%list default = get_loop c rest default.
Proof.
  revert cfg. induction keys as [|k keys IH]; intros cfg; simpl.
  - now intros [= ->].
  - destruct cfg as [items|s|l|]; try discriminate.
    destruct (assoc k items); [apply IH | discriminate].
Qed.

(** X1: a mandatory lookup by the dotted path [k1.k2...kn] returns a value
    exactly when [cfg[k1][k2]...[kn]] exists through mappings, and then
    returns that value. *)
Theorem Config_get_mandatory_dotted cfg keys v :
  keys <> [] -> Forall dotless keys ->
  Config_get cfg (Str.join "." keys) None = Value v <-> descend cfg keys = Some v.
Proof.
  intros Hne Hd. unfold Config_get. rewrite (split_on_join _ Hne Hd).
  apply get_loop_mandatory.
Qed.

Lemma Config_get_mandatory_dotted_witness :
  Config_get
    (YDict [("note", YDict [("file_ext", YStr "md"); ("location", YStr "~/notes")])])
    "note.location" None
  = Value (YStr "~/notes").
Proof.
  apply (Config_get_mandatory_dotted
           (YDict [("note", YDict [("file_ext", YStr "md");
                                   ("location", YStr "~/notes")])])
           ["note"; "location"] (YStr "~/notes"));
    [discriminate | repeat constructor | reflexivity].
Defined.





(** X4: when the path goes on below a number, a boolean or [None] (an
    empty configuration file loads as [None]), the lookup raises
    [TypeError], default or not. *)
Theorem Config_get_below_scalar cfg prefix key rest default :
  Forall dotless (prefix ++ key :: rest)%list ->
  descend cfg prefix = Some YScalar ->
  Config_get cfg (Str.join "." (prefix ++ key :: rest)%list) default = TypeError.
Proof.
  intros Hd Hp. unfold Config_get.
  rewrite split_on_join by (try done; now destruct prefix).
  rewrite (get_loop_app _ _ _ _ _ Hp). reflexivity.
Qed.

Lemma Config_get_below_scalar_witness :
  Config_get YScalar "note.location" (Some (YStr "~/notes")) = TypeError.
Proof.
  apply (Config_get_below_scalar YScalar [] "note" ["location"]
           (Some (YStr "~/notes")));
    [repeat constructor | reflexivity].
Defined.

(** ** The scan of the note directory: [Cache._cache_notes] *)

Lemma proc_eta s :
  {| world := world s; stdout := stdout s; logged := logged s |} = s.
Proof. now destruct s. Qed.

Lemma bindP_run {A B} (m : P A) (k : A -> P B) s a s1 :
  m s = (Done a, s1) -> bindP m k s = k a s1.
Proof. intros H. unfold bindP. now rewrite H. Qed.

Lemma bindP_failed {A B} (m : P A) (k : A -> P B) s e s1 :
  m s = (Failed e, s1) -> bindP m k s = (Failed e, s1).
Proof. intros H. unfold bindP. now rewrite H. Qed.

Lemma run_ok {A} (m : M A) s a w :
  m (world s) = (Ok a, w) ->
  run m s = (Done a, {| world := w; stdout := stdout s; logged := logged s |}).
Proof. intros H. unfold run. now rewrite H. Qed.

Lemma run_raise {A} (m : M A) s e w :
  m (world s) = (Raise e, w) ->
  run m s = (Failed (Exn e),
             {| world := w; stdout := stdout s; logged := logged s |}).
Proof. intros H. unfold run. now rewrite H. Qed.

(** A malformed note that is there makes [cache_note] raise with nothing
    changed. *)
Lemma cache_note_malformed cfg expanduser note w f :
  fs w !! Path.str note = Some f ->
  wellformed f = false ->
  cache_note cfg expanduser note w = (Raise NoteFormatError, w).
Proof.
  intros Hf Hbad. unfold cache_note.
  rewrite (bind_run _ _ _ _ _ (exists_run_true _ _ _ Hf)). cbn [negb].
  destruct (malformed_parse f Hbad) as [Hn | [[N Hn] Ht]].
  - apply bind_raise. rewrite (extract_note_name_run _ _ _ Hf). now rewrite Hn.
  - erewrite bind_run
      by (rewrite (extract_note_name_run _ _ _ Hf); now rewrite Hn).
    apply bind_raise. rewrite (extract_note_tags_run _ _ _ Hf). now rewrite Ht.
Qed.

Lemma entry_of_text_wellformed f :
  entry_of_text f = None <-> wellformed f = false.
Proof.
  unfold entry_of_text. destruct (wellformed f) eqn:H.
  - destruct (wellformed_parse f H) as (N & T & -> & ->). split; discriminate.
  - destruct (malformed_parse f H) as [-> | [[N ->] ->]]; split; reflexivity.
Qed.

(** X5: the scan never ends with a [NoteFormatError]: the one a note
    raises is caught, and the scan can only fail with another exception
    of [cache_note]. *)
Theorem _cache_notes_catches_format_errors cfg expanduser globbed s :
  fst (_cache_notes cfg expanduser globbed s) <> Failed (Exn NoteFormatError).
Proof.
  revert s. induction globbed as [|note rest IH]; intros s; [discriminate|].
  cbn [_cache_notes]. unfold bindP, try_cache_note, logger_error.
  destruct (cache_note cfg expanduser note (world s)) as [[r|e] w].
  - apply IH.
  - destruct e; (apply IH || (simpl; discriminate)).
Qed.

(** X6: a malformed note is skipped: one line that names the path and
    carries the message of the exception goes to the log, the index and
    the files stay as they are, and the scan goes on with the next
    path. *)
Theorem _cache_notes_skips_malformed cfg expanduser note rest s f :
  fs (world s) !! Path.str note = Some f ->
  wellformed f = false ->
  _cache_notes cfg expanduser (note :: rest) s
  = _cache_notes cfg expanduser rest
      {| world := world s; stdout := stdout s;
         logged := logged s
                   ++ ["Failed to load " ++ Path.str note ++ ": "
                       ++ format_error_text f] |}.
Proof.
  intros Hf Hbad. cbn [_cache_notes]. unfold bindP at 1, try_cache_note.
  rewrite (cache_note_malformed _ _ _ _ _ Hf Hbad), Hf. reflexivity.
Qed.

Lemma _cache_notes_skips_malformed_witness :
  _cache_notes cfg0 id [Path.of_string "b.md"; Path.of_string "a.md"] two_notes
  = _cache_notes cfg0 id [Path.of_string "a.md"]
      {| world := world two_notes; stdout := [];
         logged := ["Failed to load b.md: first line does not start with '##'"] |}.
Proof.
  apply (_cache_notes_skips_malformed cfg0 id (Path.of_string "b.md")
           [Path.of_string "a.md"] two_notes ("no marker here" ++ nl));
    vm_compute; reflexivity.
Defined.

(** Indexing a well-formed note that sits at its canonical path and is not
    indexed yet: the call returns, adds the entry and leaves the files. *)
Lemma cache_note_in_place_fresh cfg expanduser note w f N T :
  fs w !! Path.str note = Some f ->
  name_of_text f = Ok N -> tags_of_text f = Ok T ->
  Path.str (get_note_path_for_note_name cfg expanduser N) = Path.str note ->
  w_notes w !! Path.str note = None ->
  exists w',
    cache_note cfg expanduser note w
    = (Ok (Some (get_note_path_for_note_name cfg expanduser N)), w') /\
    fs w' = fs w /\
    w_names w' = <[N := Path.str note]> (w_names w) /\
    w_notes w'
    = <[Path.str note := {| Entry.name := N; Entry.tags := T |}]> (w_notes w).
Proof.
  intros Hf HN HT Hp Hnone.
  destruct (cache_note_fresh_returns cfg expanduser note w f N T)
    as (w' & E); try done; [now rewrite Hp|].
  exists w'. split; [exact E|].
  destruct (cache_note_ok_steps _ _ _ _ _ _ _ Hf E)
    as (N' & T' & w1 & HN' & HT' & _ & Estep & Hfs & Hnames & Hnotes & _).
  rewrite HN in HN'. injection HN' as <-.
  rewrite HT in HT'. injection HT' as <-.
  assert (Path.eqb (get_note_path_for_note_name cfg expanduser N) note = true)
    as Heq by (unfold Path.eqb; now apply String.eqb_eq).
  rewrite Heq in Estep. cbn [negb] in Estep. injection Estep as <-.
  now rewrite Hfs, Hnames, Hnotes, Hp.
Qed.

(** X7: the scan of a directory whose notes are not indexed yet, each
    well-formed one sitting at the canonical path of its name: the scan
    returns, writes nothing to the console and moves no file, and
    afterwards [notes] holds, for each path scanned, the name and the
    tags of its note when it is well formed and nothing when it is
    malformed; the other keys of [notes] are as before. *)
Theorem _cache_notes_indexes_wellformed cfg expanduser globbed s :
  NoDup (map Path.str globbed) ->
  (forall note, note ∈ globbed -> w_notes (world s) !! Path.str note = None) ->
  (forall note, note ∈ globbed ->
     exists f, fs (world s) !! Path.str note = Some f /\
       forall N, name_of_text f = Ok N -> wellformed f = true ->
         Path.str (get_note_path_for_note_name cfg expanduser N) = Path.str note) ->
  exists s',
    _cache_notes cfg expanduser globbed s = (Done tt, s') /\
    fs (world s') = fs (world s) /\ stdout s' = stdout s /\
    (forall note f, note ∈ globbed -> fs (world s) !! Path.str note = Some f ->
       w_notes (world s') !! Path.str note = entry_of_text f) /\
    (forall q, q ∉ map Path.str globbed ->
       w_notes (world s') !! q = w_notes (world s) !! q).
Proof.
  revert s. induction globbed as [|note rest IH]; intros s Hnd Hnew Hfiles.
  { exists s. repeat split; try done. intros note f Hin. inversion Hin. }
  cbn [map] in Hnd. apply NoDup_cons in Hnd as [Hhead Hnd].
  destruct (Hfiles note ltac:(left)) as (f & Hf & Hcanon).
  assert (exists s1,
             try_cache_note cfg expanduser note s = (Done tt, s1) /\
             fs (world s1) = fs (world s) /\ stdout s1 = stdout s /\
             w_notes (world s1) !! Path.str note = entry_of_text f /\
             forall q, q <> Path.str note ->
               w_notes (world s1) !! q = w_notes (world s) !! q)
    as (s1 & E1 & Hfs1 & Hout1 & Hhere & Hframe).
  { unfold try_cache_note. destruct (wellformed f) eqn:Hwf.
    - destruct (wellformed_parse f Hwf) as (N & T & HN & HT).
      destruct (cache_note_in_place_fresh cfg expanduser note (world s) f N T)
        as (w' & E & Hfs & _ & Hnotes); try done; [auto | apply Hnew; left|].
      rewrite E. eexists. split; [reflexivity|]. cbn [world stdout].
      repeat split; try done.
      + rewrite Hnotes, lookup_insert_eq. unfold entry_of_text.
        now rewrite HN, HT.
      + intros q Hq. rewrite Hnotes. now apply lookup_insert_ne.
    - rewrite (cache_note_malformed _ _ _ _ _ Hf Hwf), Hf.
      unfold logger_error. eexists. split; [reflexivity|].
      cbn [world stdout]. repeat split; try done.
      rewrite (Hnew note ltac:(left)). symmetry.
      now apply entry_of_text_wellformed. }
  destruct (IH s1) as (s' & E & Hfs & Hout & Hnotes & Hrest); [done| |  |].
  { intros note' Hin. rewrite Hframe; [apply Hnew; now right|].
    intros Heq. apply Hhead. rewrite <- Heq.
    apply list_elem_of_fmap. eauto. }
  { intros note' Hin. rewrite Hfs1. apply Hfiles. now right. }
  exists s'. cbn [_cache_notes]. rewrite (bindP_run _ _ _ _ _ E1).
  split; [exact E|]. split; [congruence|]. split; [congruence|]. split.
  - intros note' f' Hin Hf'.
    apply elem_of_cons in Hin as [->|Hin].
    + rewrite Hf in Hf'. injection Hf' as <-.
      rewrite Hrest; [exact Hhere|exact Hhead].
    + apply Hnotes; [done|]. now rewrite Hfs1.
  - intros q Hq. cbn [map] in Hq. apply not_elem_of_cons in Hq as [Hq1 Hq2].
    rewrite (Hrest q Hq2). now apply Hframe.
Qed.

Lemma _cache_notes_indexes_wellformed_witness :
  exists s',
    _cache_notes cfg0 id [Path.of_string "b.md"; Path.of_string "a.md"] two_notes
    = (Done tt, s') /\
    w_notes (world s') !! "a.md"
    = Some {| Entry.name := "A"; Entry.tags := ["x"] |} /\
    w_notes (world s') !! "b.md" = None.
Proof.
  destruct (_cache_notes_indexes_wellformed cfg0 id
              [Path.of_string "b.md"; Path.of_string "a.md"] two_notes)
    as (s' & E & _ & _ & Hnotes & _).
  - vm_compute. repeat constructor; set_solver.
  - intros note Hin. reflexivity.
  - intros note [->|[->|Hin]%elem_of_cons]%elem_of_cons.
    + eexists. split; [vm_compute; reflexivity|]. intros N _ [=].
    + eexists. split; [vm_compute; reflexivity|]. intros N [= <-] _.
      reflexivity.
    + inversion Hin.
  - exists s'. split; [exact E|]. split.
    + apply (Hnotes (Path.of_string "a.md") ("## A" ++ nl ++ "#x" ++ nl));
        [set_solver | vm_compute; reflexivity].
    + apply (Hnotes (Path.of_string "b.md") ("no marker here" ++ nl));
        [set_solver | vm_compute; reflexivity].
Defined.

(** X8: the index left by the scan, whether it returns or fails, is one
    that [cache_note] calls reach from the index it started with; from
    the empty index of [Cache.__init__] it is a reachable index. *)
Theorem _cache_notes_reachable cfg expanduser globbed s :
  reachable cfg expanduser (cache (world s)) ->
  reachable cfg expanduser
    (cache (world (snd (_cache_notes cfg expanduser globbed s)))).
Proof.
  revert s. induction globbed as [|note rest IH]; intros s Hs; [exact Hs|].
  cbn [_cache_notes]. unfold bindP.
  assert (reachable cfg expanduser
            (cache (world (snd (try_cache_note cfg expanduser note s))))) as H1.
  { pose proof (reach_cache_note cfg expanduser (cache (world s))
                  (fs (world s)) note Hs) as H.
    rewrite world_eta in H. unfold try_cache_note.
    destruct (cache_note cfg expanduser note (world s)) as [[r|e] w];
      [exact H|]. destruct e; exact H. }
  destruct (try_cache_note cfg expanduser note s) as [[[]|e] s1];
    [now apply IH | exact H1].
Qed.

Lemma _cache_notes_reachable_witness :
  reachable cfg0 id
    (cache (world (snd (_cache_notes cfg0 id
       [Path.of_string "b.md"; Path.of_string "a.md"] two_notes)))).
Proof.
  apply (_cache_notes_reachable cfg0 id
           [Path.of_string "b.md"; Path.of_string "a.md"] two_notes).
  apply reach_empty.
Defined.

(** ** What the index operations leave alone *)

Lemma rename_keeps_tags note target : keeps w_tags (rename note target).
Proof. prim. Qed.

Lemma rename_keeps_notes note target : keeps w_notes (rename note target).
Proof. prim. Qed.

(** X9: [uncache_note] never touches the files, whether it returns or
    raises. *)
Theorem uncache_note_leaves_files note w :
  fs (snd (uncache_note note w)) = fs w.
Proof. apply uncache_note_keeps_fs. Qed.

Lemma keeps_fs_lookup {A} (m : M A) q :
  keeps fs m -> keeps (fun w => fs w !! q) m.
Proof. intros H w. now rewrite H. Qed.

Lemma rename_keeps_other_files note target q :
  q <> Path.str note -> q <> Path.str target ->
  keeps (fun w => fs w !! q) (rename note target).
Proof.
  intros H1 H2 w. unfold rename.
  destruct (fs w !! Path.str note); [|reflexivity]. simpl.
  rewrite lookup_insert_ne by done. now apply lookup_delete_ne.
Qed.

(** X10: whether it returns or raises, [cache_note] changes no file but
    the one at the path it is given and the one at the canonical path of
    the name it parses there. *)
Theorem cache_note_leaves_other_files cfg expanduser note w q :
  q <> Path.str note ->
  (forall f N, fs w !! Path.str note = Some f -> name_of_text f = Ok N ->
     q <> Path.str (get_note_path_for_note_name cfg expanduser N)) ->
  fs (snd (cache_note cfg expanduser note w)) !! q = fs w !! q.
Proof.
  intros Hq Hcanon.
  destruct (fs w !! Path.str note) as [f|] eqn:Hf.
  2:{ rewrite (cache_note_missing _ _ _ _ Hf).
      apply (keeps_fs_lookup (uncache_note note ;;; ret None) q).
      apply keeps_bind; [apply uncache_note_keeps_fs | auto with keeps]. }
  unfold cache_note.
  rewrite (bind_run _ _ _ _ _ (exists_run_true _ _ _ Hf)). cbn [negb].
  unfold bind at 1. rewrite (extract_note_name_run _ _ _ Hf).
  destruct (name_of_text f) as [N|e] eqn:HN; [|reflexivity].
  unfold bind at 1. rewrite (extract_note_tags_run _ _ _ Hf).
  destruct (tags_of_text f) as [T|e] eqn:HT; [|reflexivity].
  specialize (Hcanon f N eq_refl HN).
  match goal with
  | |- fs (snd (?m w)) !! q = _ =>
      cut (keeps (fun w => fs w !! q) m); [intros Hk; exact (Hk w)|]
  end.
  apply keeps_bind.
  { destruct (negb _); [|auto with keeps].
    apply keeps_bind; [now apply rename_keeps_other_files|].
    intros _. apply keeps_fs_lookup, uncache_note_keeps_fs. }
  intros _. apply keeps_fs_lookup.
  apply keeps_bind; [auto with keeps|]. intros _.
  apply keeps_bind; [auto with keeps|]. intros c.
  apply keeps_bind.
  { apply keeps_for_each. intros x. destruct (negb _); auto with keeps. }
  intros _. apply keeps_bind; [apply keeps_for_each; auto with keeps|].
  intros _. apply keeps_bind; auto with keeps.
Qed.

Lemma cache_note_leaves_other_files_witness :
  fs (snd (cache_note cfg0 id (Path.of_string "foo.md")
             {| cache := cache foo_world;
                fs := <["other.md" := "text"]> (fs foo_renamed) |}))
    !! "other.md"
  = Some "text".
Proof.
  refine (cache_note_leaves_other_files cfg0 id (Path.of_string "foo.md")
            {| cache := cache foo_world;
               fs := <["other.md" := "text"]> (fs foo_renamed) |}
            "other.md" _ _).
  - vm_compute. discriminate.
  - intros f N Hf HN. vm_compute in Hf. injection Hf as <-.
    vm_compute in HN. injection HN as <-. vm_compute. discriminate.
Defined.

(** X11: no call removes a key of [tags]: a tag that has lost its last
    note keeps its entry, with an empty set. *)
Theorem tags_keys_stay cfg expanduser note w t :
  is_Some (tags (cache w) !! t) ->
  is_Some (tags (cache (snd (cache_note cfg expanduser note w))) !! t) /\
  is_Some (tags (cache (snd (uncache_note note w))) !! t).
Proof.
  set (K := fun w : World => is_Some (w_tags w !! t)).
  assert (forall A (m : M A), keeps w_tags m -> preserves K m) as Hkeep.
  { intros A m. apply (keeps_preserves w_tags (fun m => is_Some (m !! t))). }
  assert (forall t' p, preserves K (tags_remove t' p)) as Hrem.
  { intros t' p w0 H0. unfold K, w_tags in *.
    unfold tags_remove, tags_getitem, set_tags, bind, get_cache, put_cache,
      ret, raise.
    simpl. destruct (tags (cache w0) !! t') as [s0|] eqn:E; simpl.
    - destruct (decide (p ∈ s0)); simpl; [|done].
      destruct (decide (t' = t)) as [->|Hne];
        [rewrite lookup_insert_eq | rewrite lookup_insert_ne]; eauto.
    - destruct (decide (p ∈ (∅ : gset string))); simpl; [set_solver|].
      destruct (decide (t' = t)) as [->|Hne];
        [rewrite lookup_insert_eq | rewrite lookup_insert_ne]; eauto. }
  assert (forall t' p, preserves K (tags_add t' p)) as Hadd.
  { intros t' p w0 H0. unfold K, w_tags in *.
    unfold tags_add, tags_getitem, set_tags, bind, get_cache, put_cache, ret.
    simpl. destruct (tags (cache w0) !! t') as [s0|] eqn:E; simpl.
    - destruct (decide (t' = t)) as [->|Hne];
        [rewrite lookup_insert_eq | rewrite lookup_insert_ne]; eauto.
    - destruct (decide (t' = t)) as [->|Hne];
        [rewrite lookup_insert_eq | rewrite !lookup_insert_ne]; eauto. }
  assert (forall note, preserves K (uncache_note note)) as Hun.
  { intros note0. unfold uncache_note.
    apply preserves_bind; [apply Hkeep; auto with keeps|]. intros c.
    destruct (notes c !! Path.str note0); [|apply preserves_ret].
    apply preserves_bind; [apply Hkeep; auto with keeps|]. intros _.
    apply preserves_bind; [apply preserves_for_each; intros; apply Hrem|].
    intros _. apply Hkeep; auto with keeps. }
  intros H. split; [|exact (Hun note w H)].
  revert w H. change (preserves K (cache_note cfg expanduser note)).
  unfold cache_note.
  apply preserves_bind; [apply Hkeep; auto with keeps|].
  intros ex. destruct ex; cbn [negb].
  2:{ apply preserves_bind; [apply Hun | intros _; apply preserves_ret]. }
  apply preserves_bind; [apply Hkeep; auto with keeps|]. intros N.
  apply preserves_bind; [apply Hkeep; auto with keeps|]. intros T.
  apply preserves_bind.
  { destruct (negb _); [|apply preserves_ret].
    apply preserves_bind; [apply Hkeep, rename_keeps_tags | intros _; apply Hun]. }
  intros _. apply preserves_bind; [apply Hkeep; auto with keeps|]. intros _.
  apply preserves_bind; [apply Hkeep; auto with keeps|]. intros c.
  apply preserves_bind.
  { apply preserves_for_each. intros x.
    destruct (negb _); [apply Hrem | apply preserves_ret]. }
  intros _. apply preserves_bind; [apply preserves_for_each; intros; apply Hadd|].
  intros _. apply Hkeep. apply keeps_bind; auto with keeps.
Qed.

Lemma tags_keys_stay_witness :
  tags (cache (snd (cache_note cfg0 id (Path.of_string "n.md") ab_retagged))) !! "a"
  = Some ∅.
Proof.
  destruct (tags_keys_stay cfg0 id (Path.of_string "n.md") ab_retagged "a")
    as [[s Hs] _].
  - vm_compute. eauto.
  - vm_compute. reflexivity.
Defined.

(** ** The keys of [notes] *)

Section NotesCanonical.

Variable cfg : Config.
Variable expanduser : Path.t -> Path.t.

Local Abbreviation NInv :=
  (fun w : World => notes_canonical cfg expanduser (w_notes w)).

Lemma keeps_notes_canonical {A} (m : M A) : keeps w_notes m -> preserves NInv m.
Proof. apply (keeps_preserves w_notes (notes_canonical cfg expanduser)). Qed.

Lemma del_notes_canonical k : preserves NInv (del_notes k).
Proof.
  intros w Hw. unfold del_notes, bind, get_cache, put_cache, raise.
  unfold w_notes in *. simpl.
  destruct (notes (cache w) !! k); simpl; [|exact Hw].
  intros p e [_ H]%lookup_delete_Some. now apply Hw.
Qed.

Lemma set_notes_canonical N T :
  preserves NInv
    (set_notes (Path.str (get_note_path_for_note_name cfg expanduser N))
       {| Entry.name := N; Entry.tags := T |}).
Proof.
  intros w Hw. rewrite set_notes_run. unfold w_notes in *. simpl.
  intros p e [[<- <-]|[_ H]]%lookup_insert_Some; [reflexivity|].
  now apply Hw.
Qed.

Lemma uncache_note_notes_canonical note : preserves NInv (uncache_note note).
Proof.
  unfold uncache_note.
  apply preserves_bind; [apply keeps_notes_canonical; auto with keeps|].
  intros c. destruct (notes c !! Path.str note) as [e|];
    [|apply preserves_ret].
  apply preserves_bind; [apply keeps_notes_canonical; auto with keeps|].
  intros _. apply preserves_bind.
  { apply keeps_notes_canonical, keeps_for_each. auto with keeps. }
  intros _. apply del_notes_canonical.
Qed.

Lemma cache_note_notes_canonical note :
  preserves NInv (cache_note cfg expanduser note).
Proof.
  unfold cache_note.
  apply preserves_bind; [apply keeps_notes_canonical; auto with keeps|].
  intros ex. destruct ex; cbn [negb].
  2:{ apply preserves_bind; [apply uncache_note_notes_canonical|].
      intros _. apply preserves_ret. }
  apply preserves_bind; [apply keeps_notes_canonical; auto with keeps|].
  intros N.
  apply preserves_bind; [apply keeps_notes_canonical; auto with keeps|].
  intros T.
  apply preserves_bind.
  { destruct (negb _); [|apply preserves_ret].
    apply preserves_bind; [|intros _; apply uncache_note_notes_canonical].
    apply keeps_notes_canonical, rename_keeps_notes. }
  intros _.
  apply preserves_bind; [apply keeps_notes_canonical; auto with keeps|].
  intros _.
  apply preserves_bind; [apply keeps_notes_canonical; auto with keeps|].
  intros c. apply preserves_bind.
  { apply keeps_notes_canonical, keeps_for_each. intros x.
    destruct (negb _); auto with keeps. }
  intros _. apply preserves_bind.
  { apply keeps_notes_canonical, keeps_for_each. auto with keeps. }
  intros _. apply preserves_bind; [apply set_notes_canonical|].
  intros _. apply preserves_ret.
Qed.

End NotesCanonical.

(** X12: in every index reached from the empty one by calls of
    [cache_note] and [uncache_note], returned or raised, each key of
    [notes] is the canonical path of the name recorded under it. *)
Theorem notes_keys_are_canonical cfg expanduser c p e :
  reachable cfg expanduser c ->
  notes c !! p = Some e ->
  p = Path.str (get_note_path_for_note_name cfg expanduser (Entry.name e)).
Proof.
  intros Hc. revert p e.
  change (notes_canonical cfg expanduser (notes c)).
  induction Hc as [|c files note _ IH|c files note _ IH].
  - intros p e H. simpl in H. now rewrite lookup_empty in H.
  - now apply (cache_note_notes_canonical cfg expanduser note
                 {| cache := c; fs := files |}).
  - now apply (uncache_note_notes_canonical cfg expanduser note
                 {| cache := c; fs := files |}).
Qed.

Lemma notes_keys_are_canonical_witness :
  "bar_baz.md" = Path.str (get_note_path_for_note_name cfg0 id "Bar Baz").
Proof.
  apply (notes_keys_are_canonical cfg0 id
           (cache (snd (cache_note cfg0 id (Path.of_string "foo.md")
              {| cache := cache (snd (cache_note cfg0 id (Path.of_string "foo.md")
                            {| cache := empty_cache;
                               fs := {[ "foo.md" := "## Foo" ++ nl ++ "#a" ++ nl ]} |}));
                 fs := fs foo_renamed |})))
           "bar_baz.md" {| Entry.name := "Bar Baz"; Entry.tags := ["a"] |}).
  - apply reach_cache_note, reach_cache_note, reach_empty.
  - vm_compute. reflexivity.
Defined.

(** ** Tag sets, key by key *)

Lemma tags_add_tags t p w :
  exists w', tags_add t p w = (Ok tt, w') /\
    w_tags w' = <[t := {[p]} ∪ default ∅ (w_tags w !! t)]> (w_tags w).
Proof.
  unfold tags_add, tags_getitem, set_tags, bind, get_cache, put_cache, ret,
    w_tags.
  simpl. destruct (tags (cache w) !! t) as [s|]; simpl;
    (eexists; split; [reflexivity|]); simpl; [reflexivity|].
  apply insert_insert_eq.
Qed.

Lemma tags_remove_tags t p w w' :
  tags_remove t p w = (Ok tt, w') ->
  exists s, w_tags w !! t = Some s /\
    w_tags w' = <[t := s ∖ {[p]}]> (w_tags w).
Proof.
  unfold tags_remove, tags_getitem, set_tags, bind, get_cache, put_cache,
    ret, raise, w_tags.
  simpl. destruct (tags (cache w) !! t) as [s|]; simpl.
  - destruct (decide (p ∈ s)); [|discriminate]. intros [= <-]. eauto.
  - destruct (decide (p ∈ (∅ : gset string))); [set_solver | discriminate].
Qed.

(** The sets after a loop of additions. *)
Lemma for_each_tags_add_lookup T p w :
  exists w', for_each T (fun t => tags_add t p) w = (Ok tt, w') /\
    forall t, w_tags w' !! t
              = if decide (t ∈ T)
                then Some ({[p]} ∪ default ∅ (w_tags w !! t))
                else w_tags w !! t.
Proof.
  revert w. induction T as [|t0 T IH]; intros w.
  - exists w. split; [reflexivity|]. intros t.
    destruct (decide (t ∈ [])) as [H|_]; [inversion H | reflexivity].
  - destruct (tags_add_tags t0 p w) as (w1 & E1 & H1).
    destruct (IH w1) as (w' & E & H).
    exists w'. split; [simpl; now rewrite (bind_run _ _ _ _ _ E1)|].
    intros t. rewrite H, H1.
    destruct (decide (t = t0)) as [->|Hne].
    + rewrite lookup_insert_eq. simpl.
      destruct (decide (t0 ∈ t0 :: T)) as [_|Hn]; [|set_solver].
      destruct (decide (t0 ∈ T)); f_equal. set_solver.
    + rewrite lookup_insert_ne by done.
      destruct (decide (t ∈ T)), (decide (t ∈ t0 :: T)); set_solver.
Qed.

(** The sets after a loop of removals that returns. *)
Lemma for_each_tags_remove_lookup T p w w' :
  for_each T (fun t => tags_remove t p) w = (Ok tt, w') ->
  forall t, w_tags w' !! t
            = if decide (t ∈ T)
              then (fun s => s ∖ {[p]}) <$> (w_tags w !! t)
              else w_tags w !! t.
Proof.
  revert w. induction T as [|t0 T IH]; intros w E t.
  - injection E as <-.
    destruct (decide (t ∈ [])) as [H|_]; [inversion H | reflexivity].
  - simpl in E. apply bind_ok_inv in E as ([] & w1 & E1 & E).
    apply tags_remove_tags in E1 as (s & Hs & H1).
    rewrite (IH _ E), H1.
    destruct (decide (t = t0)) as [->|Hne].
    + rewrite lookup_insert_eq, Hs. simpl.
      destruct (decide (t0 ∈ t0 :: T)) as [_|Hn]; [|set_solver].
      destruct (decide (t0 ∈ T)); f_equal. set_solver.
    + rewrite lookup_insert_ne by done.
      destruct (decide (t ∈ T)), (decide (t ∈ t0 :: T)); set_solver.
Qed.

(** The sets after [uncache_note] has returned on an indexed path. *)
Lemma uncache_note_tags note w w' e :
  w_notes w !! Path.str note = Some e ->
  uncache_note note w = (Ok tt, w') ->
  forall t, w_tags w' !! t
            = if decide (t ∈ Entry.tags e)
              then (fun s => s ∖ {[Path.str note]}) <$> (w_tags w !! t)
              else w_tags w !! t.
Proof.
  intros He H t. unfold uncache_note in H.
  apply bind_ok_inv in H as (c & w0 & E & H). injection E as <- <-.
  unfold w_notes in He. rewrite He in H.
  apply bind_ok_inv in H as ([] & w1 & E1 & H).
  apply bind_ok_inv in H as ([] & w2 & E2 & H).
  apply del_names_ok_inv in E1 as (_ & Ht1 & _).
  apply del_notes_ok_inv in H as (_ & Ht3 & _).
  rewrite Ht3, (for_each_tags_remove_lookup _ _ _ _ E2), Ht1. reflexivity.
Qed.

(** The sets after [cache_note] has indexed, in place, a note that was
    not indexed. *)
Lemma cache_note_in_place_fresh_tags cfg expanduser note w r w' f N T :
  fs w !! Path.str note = Some f ->
  name_of_text f = Ok N -> tags_of_text f = Ok T ->
  Path.str (get_note_path_for_note_name cfg expanduser N) = Path.str note ->
  w_notes w !! Path.str note = None ->
  cache_note cfg expanduser note w = (Ok r, w') ->
  forall t, w_tags w' !! t
            = if decide (t ∈ T)
              then Some ({[Path.str note]} ∪ default ∅ (w_tags w !! t))
              else w_tags w !! t.
Proof.
  intros Hf HN HT Hp Hnone H. unfold cache_note in H.
  rewrite (bind_run _ _ _ _ _ (exists_run_true _ _ _ Hf)) in H. cbn [negb] in H.
  erewrite bind_run in H
    by (rewrite (extract_note_name_run _ _ _ Hf), HN; reflexivity).
  erewrite bind_run in H
    by (rewrite (extract_note_tags_run _ _ _ Hf), HT; reflexivity).
  assert (Path.eqb (get_note_path_for_note_name cfg expanduser N) note = true)
    as Heq by (unfold Path.eqb; now apply String.eqb_eq).
  rewrite Heq, Hp in H. cbn [negb] in H.
  erewrite bind_run in H by reflexivity.
  rewrite (bind_run _ _ _ _ _ (set_names_run _ _ _)) in H.
  erewrite bind_run in H by reflexivity. cbn [notes cache] in H.
  unfold w_notes in Hnone. rewrite Hnone in H. cbn [for_each] in H.
  erewrite bind_run in H by reflexivity.
  match type of H with
  | bind (for_each T ?body) _ ?w2 = _ =>
      destruct (for_each_tags_add_lookup T (Path.str note) w2)
        as (w3 & E3 & H3)
  end.
  rewrite (bind_run _ _ _ _ _ E3) in H.
  rewrite (bind_run _ _ _ _ _ (set_notes_run _ _ _)) in H.
  injection H as _ <-. intros t. exact (H3 t).
Qed.

Lemma world_ext (a b : World) :
  w_names a = w_names b -> w_tags a = w_tags b -> w_notes a = w_notes b ->
  fs a = fs b -> a = b.
Proof.
  destruct a as [[] ?], b as [[] ?]. unfold w_names, w_tags, w_notes.
  simpl. now intros -> -> -> ->.
Qed.

(** ** [delete_note] and [restore_note] *)

Lemma last_token_run operation ts tok s :
  Str.split operation = (ts ++ [tok])%list ->
  last_token operation s = (Done tok, s).
Proof.
  intros H. unfold last_token. rewrite H.
  destruct ts as [|t ts]; [reflexivity|]. simpl app.
  unfold retP. f_equal. f_equal. apply List.last_last.
Qed.

(** X13: [delete_note] on a path where no file is raises
    [FileNotFoundError], prints nothing and leaves the index and the
    files as they are. *)
Theorem delete_note_missing_file cfg expanduser operation ts tok s :
  Str.split operation = (ts ++ [tok])%list ->
  fs (world s) !! Path.str (Path.of_string tok) = None ->
  delete_note cfg expanduser operation s = (Failed (Exn FileNotFoundError), s).
Proof.
  intros Hop Hf. unfold delete_note.
  rewrite (bindP_run _ _ _ _ _ (last_token_run _ _ _ _ Hop)).
  unfold ensure_dir. erewrite bindP_run by reflexivity.
  apply bindP_failed. rewrite <- (proc_eta s) at 2.
  apply run_raise. unfold rename. now rewrite Hf.
Qed.

Lemma delete_note_missing_file_witness :
  delete_note cfg0 id "delete gone.md" ab_proc
  = (Failed (Exn FileNotFoundError), ab_proc).
Proof.
  apply (delete_note_missing_file cfg0 id "delete gone.md" ["delete"] "gone.md");
    vm_compute; reflexivity.
Defined.

(** [delete_note] on an indexed note whose entry agrees with [names] and
    [tags]: the world it leaves. *)
Lemma delete_note_run cfg expanduser operation ts tok s f e :
  Str.split operation = (ts ++ [tok])%list ->
  fs (world s) !! Path.str (Path.of_string tok) = Some f ->
  Path.str (deleted_path cfg expanduser (Path.of_string tok))
    <> Path.str (Path.of_string tok) ->
  w_notes (world s) !! Path.str (Path.of_string tok) = Some e ->
  is_Some (w_names (world s) !! Entry.name e) ->
  NoDup (Entry.tags e) ->
  (forall t, t ∈ Entry.tags e ->
     tagged (cache (world s)) t (Path.str (Path.of_string tok))) ->
  exists w',
    delete_note cfg expanduser operation s
    = (Done tt,
       {| world := w';
          stdout := stdout s
                    ++ ["Marked " ++ Path.str (Path.of_string tok) ++ " deleted"];
          logged := logged s |}) /\
    fs w' = <[Path.str (deleted_path cfg expanduser (Path.of_string tok)) := f]>
              (delete (Path.str (Path.of_string tok)) (fs (world s))) /\
    w_notes w' = delete (Path.str (Path.of_string tok)) (w_notes (world s)) /\
    w_names w' = delete (Entry.name e) (w_names (world s)) /\
    (forall t, w_tags w' !! t
               = if decide (t ∈ Entry.tags e)
                 then (fun x => x ∖ {[Path.str (Path.of_string tok)]})
                        <$> (w_tags (world s) !! t)
                 else w_tags (world s) !! t).
Proof.
  intros Hop Hf Hd He Hname Hnd Htags. unfold delete_note.
  rewrite (bindP_run _ _ _ _ _ (last_token_run _ _ _ _ Hop)).
  unfold ensure_dir. erewrite bindP_run by reflexivity.
  set (note := Path.of_string tok) in *.
  fold (deleted_path cfg expanduser note).
  set (d := deleted_path cfg expanduser note) in *.
  set (w1 := {| cache := cache (world s);
                fs := <[Path.str d := f]> (delete (Path.str note) (fs (world s))) |}).
  erewrite bindP_run
    by (apply run_ok; unfold rename; rewrite Hf; reflexivity).
  fold w1. cbn [world stdout logged].
  destruct (uncache_note_returns note w1 e) as (w2 & E2); try done.
  assert (fs w1 !! Path.str note = None) as Hgone.
  { unfold w1. simpl. rewrite lookup_insert_ne by done. apply lookup_delete_eq. }
  erewrite bindP_run.
  2:{ apply run_ok. cbn [world]. rewrite (cache_note_missing _ _ _ _ Hgone).
      rewrite (bind_run _ _ _ _ _ E2). reflexivity. }
  exists w2. split; [reflexivity|].
  destruct (uncache_note_ok_inv note w1 w2 e He E2) as (Ho & Hn & Hfs & _).
  split; [exact Hfs|]. split; [exact Ho|]. split; [exact Hn|].
  exact (uncache_note_tags note w1 w2 e He E2).
Qed.

(** X14: [delete_note] on an indexed note whose entry agrees with
    [names] and [tags] (the name is in [names], the tags are distinct
    and each set holds the path) returns: the file is under [deleted] of
    the note directory and no longer at its path, the path has no entry
    in [notes], its name none in [names], the path is in the set of none
    of its tags, and one line is printed. *)
Theorem delete_note_removes cfg expanduser operation ts tok s f e :
  Str.split operation = (ts ++ [tok])%list ->
  fs (world s) !! Path.str (Path.of_string tok) = Some f ->
  Path.str (deleted_path cfg expanduser (Path.of_string tok))
    <> Path.str (Path.of_string tok) ->
  w_notes (world s) !! Path.str (Path.of_string tok) = Some e ->
  is_Some (w_names (world s) !! Entry.name e) ->
  NoDup (Entry.tags e) ->
  (forall t, t ∈ Entry.tags e ->
     tagged (cache (world s)) t (Path.str (Path.of_string tok))) ->
  exists s',
    delete_note cfg expanduser operation s = (Done tt, s') /\
    fs (world s') !! Path.str (Path.of_string tok) = None /\
    fs (world s') !! Path.str (deleted_path cfg expanduser (Path.of_string tok))
      = Some f /\
    w_notes (world s') !! Path.str (Path.of_string tok) = None /\
    w_names (world s') !! Entry.name e = None /\
    (forall t, t ∈ Entry.tags e ->
       ~ tagged (cache (world s')) t (Path.str (Path.of_string tok))) /\
    stdout s'
    = (stdout s
       ++ [("Marked " ++ Path.str (Path.of_string tok) ++ " deleted")%string])%list.
Proof.
  intros Hop Hf Hd He Hname Hnd Htags.
  destruct (delete_note_run cfg expanduser operation ts tok s f e)
    as (w' & E & Hfs & Ho & Hn & Ht); try done.
  eexists. split; [exact E|]. cbn [world stdout].
  rewrite Hfs, Ho, Hn.
  split; [rewrite lookup_insert_ne by done; apply lookup_delete_eq|].
  split; [apply lookup_insert_eq|].
  split; [apply lookup_delete_eq|].
  split; [apply lookup_delete_eq|].
  split; [|reflexivity].
  intros t Hin (x & Hx & Hp). unfold w_tags in Ht. rewrite Ht in Hx.
  destruct (decide (t ∈ Entry.tags e)); [|done].
  destruct (tags (cache (world s)) !! t); simpl in Hx; [|discriminate].
  injection Hx as <-. set_solver.
Qed.

Lemma delete_note_removes_witness :
  exists s',
    delete_note cfg0 id "delete n.md" ab_proc = (Done tt, s') /\
    fs (world s') !! "n.md" = None /\
    fs (world s') !! "deleted/n.md" = Some ("## N" ++ nl ++ "#a #b" ++ nl) /\
    w_notes (world s') !! "n.md" = None /\
    w_names (world s') !! "N" = None /\
    (forall t, t ∈ ["a"; "b"] -> ~ tagged (cache (world s')) t "n.md") /\
    stdout s' = ["Marked n.md deleted"].
Proof.
  apply (delete_note_removes cfg0 id "delete n.md" ["delete"] "n.md" ab_proc
           ("## N" ++ nl ++ "#a #b" ++ nl)
           {| Entry.name := "N"; Entry.tags := ["a"; "b"] |}).
  - vm_compute; reflexivity.
  - vm_compute; reflexivity.
  - vm_compute. discriminate.
  - vm_compute; reflexivity.
  - vm_compute. eauto.
  - repeat constructor; set_solver.
  - intros t [->|[->|Hin]%elem_of_cons]%elem_of_cons.
    + exists {[ "n.md" ]}. split; [vm_compute; reflexivity | set_solver].
    + exists {[ "n.md" ]}. split; [vm_compute; reflexivity | set_solver].
    + inversion Hin.
Defined.

(** X15: delete then restore is a round trip. For an indexed,
    well-formed note that sits at the canonical path of its name, with
    distinct tags that all hold its path, and with no file yet at its
    place under [deleted]: [delete_note] on its path followed by
    [restore_note] on the deleted file brings back the index and the
    files exactly as they were, and prints the two lines. *)
Theorem delete_restore_round_trip cfg expanduser op1 ts1 tok1 op2 ts2 tok2 s f N T :
  Str.split op1 = (ts1 ++ [tok1])%list ->
  Str.split op2 = (ts2 ++ [tok2])%list ->
  Path.str (Path.of_string tok2)
    = Path.str (deleted_path cfg expanduser (Path.of_string tok1)) ->
  Path.str (restored_path cfg expanduser (Path.of_string tok2))
    = Path.str (Path.of_string tok1) ->
  Path.str (deleted_path cfg expanduser (Path.of_string tok1))
    <> Path.str (Path.of_string tok1) ->
  fs (world s) !! Path.str (Path.of_string tok1) = Some f ->
  fs (world s) !! Path.str (deleted_path cfg expanduser (Path.of_string tok1))
    = None ->
  name_of_text f = Ok N -> tags_of_text f = Ok T ->
  Path.str (get_note_path_for_note_name cfg expanduser N)
    = Path.str (Path.of_string tok1) ->
  w_notes (world s) !! Path.str (Path.of_string tok1)
    = Some {| Entry.name := N; Entry.tags := T |} ->
  w_names (world s) !! N = Some (Path.str (Path.of_string tok1)) ->
  NoDup T ->
  (forall t, t ∈ T -> tagged (cache (world s)) t (Path.str (Path.of_string tok1))) ->
  (delete_note cfg expanduser op1 >> restore_note cfg expanduser op2) s
  = (Done tt,
     {| world := world s;
        stdout := stdout s
                  ++ ["Marked " ++ Path.str (Path.of_string tok1) ++ " deleted";
                      "Restored "
                      ++ Path.str (restored_path cfg expanduser (Path.of_string tok2))];
        logged := logged s |}).
Proof.
  intros Hop1 Hop2 Htok2 Hr Hd Hf Hfree HN HT Hcanon Hnotes Hnames Hnd Htags.
  set (note := Path.of_string tok1) in *.
  set (d := deleted_path cfg expanduser note) in *.
  destruct (delete_note_run cfg expanduser op1 ts1 tok1 s f
              {| Entry.name := N; Entry.tags := T |}
              Hop1 Hf Hd Hnotes (mk_is_Some _ _ Hnames) Hnd Htags)
    as (w1 & E1 & Hfs1 & Ho1 & Hn1 & Ht1).
  fold note d in E1, Hfs1, Ho1, Hn1, Ht1. cbn [Entry.name Entry.tags] in *.
  rewrite (bindP_run _ _ _ _ _ E1).
  unfold restore_note.
  rewrite (bindP_run _ _ _ _ _ (last_token_run _ _ _ _ Hop2)).
  fold (restored_path cfg expanduser (Path.of_string tok2)).
  set (r := restored_path cfg expanduser (Path.of_string tok2)) in *.
  set (w2 := {| cache := cache w1;
                fs := <[Path.str r := f]>
                        (delete (Path.str (Path.of_string tok2)) (fs w1)) |}).
  assert (rename (Path.of_string tok2) r w1 = (Ok tt, w2)) as Eren.
  { unfold rename.
    assert (fs w1 !! Path.str (Path.of_string tok2) = Some f) as ->
      by (rewrite Htok2, Hfs1; apply lookup_insert_eq).
    reflexivity. }
  erewrite bindP_run by (apply run_ok; exact Eren).
  cbn [world stdout logged].
  assert (fs w2 !! Path.str r = Some f) as Hf2 by apply lookup_insert_eq.
  assert (w_notes w2 !! Path.str r = None) as Hfresh.
  { change (w_notes w2) with (w_notes w1). rewrite Ho1, Hr.
    apply lookup_delete_eq. }
  destruct (cache_note_in_place_fresh cfg expanduser r w2 f N T)
    as (w3 & E3 & Hfs3 & Hn3 & Ho3); try done; [congruence|].
  pose proof (cache_note_in_place_fresh_tags cfg expanduser r w2 _ w3 f N T
                Hf2 HN HT ltac:(congruence) Hfresh E3) as Ht3.
  erewrite bindP_run by (apply run_ok; cbn [world]; exact E3).
  unfold print. cbn [world stdout logged].
  rewrite <- app_assoc. cbn [app].
  f_equal. f_equal. apply world_ext.
  - rewrite Hn3. change (w_names w2) with (w_names w1).
    rewrite Hn1, Hr, insert_delete_eq. now apply insert_id.
  - apply map_eq. intros t. rewrite Ht3.
    change (w_tags w2) with (w_tags w1). rewrite Ht1, Hr.
    destruct (decide (t ∈ T)) as [Hin|Hin]; [|reflexivity].
    destruct (Htags t Hin) as (x & Hx & Hp). unfold w_tags. rewrite Hx.
    simpl. f_equal. apply set_eq. intros y.
    rewrite elem_of_union, elem_of_difference, elem_of_singleton.
    destruct (decide (y = Path.str note)) as [->|Hy]; naive_solver.
  - rewrite Ho3. change (w_notes w2) with (w_notes w1).
    rewrite Ho1, Hr, insert_delete_eq. now apply insert_id.
  - rewrite Hfs3. unfold w2. cbn [fs]. rewrite Hfs1, Htok2, Hr.
    apply map_eq. intros k.
    destruct (decide (k = Path.str note)) as [->|Hk];
      [now rewrite lookup_insert_eq|].
    rewrite lookup_insert_ne by done.
    destruct (decide (k = Path.str d)) as [->|Hk2];
      [now rewrite lookup_delete_eq|].
    now rewrite lookup_delete_ne, lookup_insert_ne, lookup_delete_ne by done.
Qed.

Lemma delete_restore_round_trip_witness :
  (delete_note cfg0 id "delete n.md" >> restore_note cfg0 id "restore deleted/n.md")
    ab_proc
  = (Done tt,
     {| world := ab_world;
        stdout := ["Marked n.md deleted"; "Restored n.md"];
        logged := [] |}).
Proof.
  apply (delete_restore_round_trip cfg0 id
           "delete n.md" ["delete"] "n.md"
           "restore deleted/n.md" ["restore"] "deleted/n.md"
           ab_proc ("## N" ++ nl ++ "#a #b" ++ nl) "N" ["a"; "b"]);
    try (vm_compute; reflexivity).
  - vm_compute. discriminate.
  - repeat constructor; set_solver.
  - intros t [->|[->|Hin]%elem_of_cons]%elem_of_cons.
    + exists {[ "n.md" ]}. split; [vm_compute; reflexivity | set_solver].
    + exists {[ "n.md" ]}. split; [vm_compute; reflexivity | set_solver].
    + inversion Hin.
Defined.

(** X16: [restore_note] does not catch the error of the parser: on a
    deleted file that is malformed it moves the file back into the note
    directory, then fails with [NoteFormatError], the index unchanged and
    nothing printed. *)
Theorem restore_note_malformed cfg expanduser operation ts tok s f :
  Str.split operation = (ts ++ [tok])%list ->
  fs (world s) !! Path.str (Path.of_string tok) = Some f ->
  wellformed f = false ->
  restore_note cfg expanduser operation s
  = (Failed (Exn NoteFormatError),
     {| world :=
          {| cache := cache (world s);
             fs := <[Path.str (restored_path cfg expanduser (Path.of_string tok)) := f]>
                     (delete (Path.str (Path.of_string tok)) (fs (world s))) |};
        stdout := stdout s; logged := logged s |}).
Proof.
  intros Hop Hf Hbad. unfold restore_note.
  rewrite (bindP_run _ _ _ _ _ (last_token_run _ _ _ _ Hop)).
  fold (restored_path cfg expanduser (Path.of_string tok)).
  erewrite bindP_run
    by (apply run_ok; unfold rename; rewrite Hf; reflexivity).
  apply bindP_failed.
  match goal with
  | |- run _ ?s1 = _ => apply (run_raise _ s1)
  end.
  cbn [world]. apply (cache_note_malformed _ _ _ _ f); [|exact Hbad].
  apply lookup_insert_eq.
Qed.

Lemma restore_note_malformed_witness :
  restore_note cfg0 id "restore deleted/b.md"
    {| world := file_world "deleted/b.md" ("no marker here" ++ nl);
       stdout := []; logged := [] |}
  = (Failed (Exn NoteFormatError),
     {| world := file_world "b.md" ("no marker here" ++ nl);
        stdout := []; logged := [] |}).
Proof.
  refine (eq_trans
            (restore_note_malformed cfg0 id "restore deleted/b.md" ["restore"]
               "deleted/b.md"
               {| world := file_world "deleted/b.md" ("no marker here" ++ nl);
                  stdout := []; logged := [] |}
               ("no marker here" ++ nl) _ _ _) _);
    vm_compute; reflexivity.
Defined.
